(** * Fireworks: particle / firework simulation of [fireworks.py]

    A shallow embedding of the simulation core of [fireworks.py] and the
    properties of its specification.

    Conventions of the embedding.
    - Python [int] values are [Z]; Python [float] values are rationals [Q]
      with exact arithmetic (every float is a rational; rounding of the
      individual operations is idealised away).
    - [math.cos] and [math.sin] are library functions of which nothing is
      needed here: they are parameters [cos], [sin] of the development.
      [math.pi] is the double it denotes.
    - The [random] module is an oracle: a tape [tape : nat -> Q] whose n-th
      entry is the value returned by the n-th call of [random.random()], a
      number in [[0, 1)]; the state threaded through the program is the
      position on the tape.  [uniform(a, b)] is [a + (b - a) * random()],
      as in CPython; [randint] and [choice] take their random integer below
      [k] as [int(random() * k)], one tape entry per call.
    - Python objects held in lists ([Particle], [Firework]) have identity
      equality, the loops iterate over a snapshot ([lst[:]]) and remove the
      object at hand from the live list: the live list is always the
      survivors processed so far followed by the objects not yet processed,
      and the loops below thread exactly that split. *)

From Stdlib Require Import ZArith QArith Qround List Bool Lia Lqa.
Import ListNotations.

Local Open Scope Z_scope.

(** ** Module-level constants (fireworks.py, lines 10-20) *)

Definition WIDTH : Z := 800.
Definition HEIGHT : Z := 600.

Definition Color : Type := (Z * Z * Z)%type.

Definition BLACK : Color := (0, 0, 0).
Definition WHITE : Color := (255, 255, 255).
Definition COLORS : list Color :=
  [ (255, 0, 0); (255, 165, 0); (255, 255, 0); (0, 255, 0);
    (0, 0, 255); (75, 0, 130); (238, 130, 238); (255, 192, 203) ].

(** ** Numbers *)

(** [a < b] on floats, as a boolean. *)
Definition Qlt_bool (a b : Q) : bool := negb (Qle_bool b a).

(** Python's [int(f)]: truncation towards zero. *)
Definition py_int (q : Q) : Z :=
  if Qle_bool 0 q then Qfloor q else Qceiling q.

(** [math.pi], the double 0x1.921fb54442d18p+1. *)
Definition pi : Q := 884279719003555 # 281474976710656.

(** ** The random oracle *)

(** A computation that consumes random draws: from a tape position to a
    result and the next tape position. *)
Definition Rand (A : Type) : Type := nat -> A * nat.

Definition ret {A} (a : A) : Rand A := fun n => (a, n).
Definition bind {A B} (m : Rand A) (k : A -> Rand B) : Rand B :=
  fun n => let (a, n') := m n in k a n'.

Notation "x <- m ;; k" := (bind m (fun x => k))
  (at level 61, m at next level, right associativity).

(** Trails: [lst.append(p)] followed by [if len(lst) > cap: lst.pop(0)]. *)
Definition trail_push {A} (cap : nat) (tr : list A) (p : A) : list A :=
  let tr' := tr ++ [p] in
  if (cap <? length tr')%nat then tl tr' else tr'.

(** ** Data model *)

Record Particle : Type := mkParticle {
  p_x : Q;
  p_y : Q;
  p_color : Color;
  p_size : Z;
  p_vx : Q;
  p_vy : Q;
  p_gravity : Q;
  p_life : Z;
  p_decay : Q;
  p_trail : list (Q * Q)
}.

Record Firework : Type := mkFirework {
  f_x : Q;
  f_y : Q;
  f_target_y : Q;
  f_color : Color;
  f_vx : Q;
  f_vy : Q;
  f_exploded : bool;
  f_particles : list Particle;
  f_trail : list (Q * Q)
}.

(** A call of [pygame.draw.circle(surface, color, center, radius)].  The
    colour is an RGB triple with an optional fourth (alpha) component. *)
Record Circle : Type := mkCircle {
  c_color : Color;
  c_alpha : option Z;
  c_center : Z * Z;
  c_radius : Z
}.

(** The alpha a drawing call receives; an RGB colour is opaque. *)
Definition alpha_of (c : Circle) : Z :=
  match c_alpha c with Some a => a | None => 255 end.

(** [enumerate(lst)] *)
Definition enumerate {A} (l : list A) : list (nat * A) :=
  combine (seq 0 (length l)) l.

Definition QZ (z : Z) : Q := inject_Z z.
Definition Qnat (n : nat) : Q := inject_Z (Z.of_nat n).

(** ** Surfaces (the part of pygame the clearing code relies on)

    A surface is its pixels and the surface-wide alpha of [set_alpha]; all
    surfaces of the program have the size of the window. *)
Record Surface : Type := mkSurface {
  pixel : Z -> Z -> Color;
  s_alpha : option Z
}.

(** [surface.fill(color)]: every pixel becomes [color], opaquely. *)
Definition fill (c : Color) (s : Surface) : Surface :=
  mkSurface (fun _ _ => c) (s_alpha s).

(** [surface.set_alpha(a)] *)
Definition set_alpha (a : Z) (s : Surface) : Surface :=
  mkSurface (pixel s) (Some a).

(** pygame's blend of one channel of a source pixel over a destination
    pixel under surface alpha [a]: [(((s - d) * a + s) >> 8) + d]. *)
Definition blend_channel (a s d : Z) : Z :=
  Z.shiftr ((s - d) * a + s) 8 + d.

Definition blend (a : Z) (src dst : Color) : Color :=
  let '(sr, sg, sb) := src in
  let '(dr, dg, db) := dst in
  (blend_channel a sr dr, blend_channel a sg dg, blend_channel a sb db).

(** [dst.blit(src, (0, 0))] for two surfaces of the same size. *)
Definition blit (src dst : Surface) : Surface :=
  match s_alpha src with
  | Some a => mkSurface (fun x y => blend a (pixel src x y) (pixel dst x y))
                        (s_alpha dst)
  | None => mkSurface (pixel src) (s_alpha dst)
  end.

(** main, lines 148-149: the translucent surface made before the loop. *)
Definition new_trail_surface : Surface :=
  set_alpha 20 (mkSurface (fun _ _ => BLACK) None).

(** main, lines 171-173: the clearing done at every frame. *)
Definition clear_screen (screen trail_surface : Surface) : Surface * Surface :=
  let screen := fill BLACK screen in
  let trail_surface := fill BLACK trail_surface in
  let screen := blit trail_surface screen in
  (screen, trail_surface).

(** The clearing the specification words: one translucent black fill over
    whatever the screen holds. *)
Definition translucent_clear (screen trail_surface : Surface)
  : Surface * Surface :=
  let trail_surface := fill BLACK trail_surface in
  (blit trail_surface screen, trail_surface).

(** ** Particle (fireworks.py, lines 22-64) *)

(** [Particle.update] *)
Definition Particle_update (p : Particle) : Particle :=
  let trail := trail_push 10 (p_trail p) (p_x p, p_y p) in
  let vx := (p_vx p * p_decay p)%Q in
  let vy := (p_vy p * p_decay p)%Q in
  let vy := (vy + p_gravity p)%Q in
  let x := (p_x p + vx)%Q in
  let y := (p_y p + vy)%Q in
  let life := p_life p - 1 in
  mkParticle x y (p_color p) (p_size p) vx vy (p_gravity p) life
             (p_decay p) trail.

(** The alpha of the trail point of index [i] in [Particle.draw]. *)
Definition particle_trail_alpha (i len : nat) (life : Z) : Z :=
  py_int (255 * (Qnat i / Qnat len) * (QZ life / 100))%Q.

(** The alpha of the particle's body in [Particle.draw]. *)
Definition particle_body_alpha (life : Z) : Z :=
  Z.max 0 (Z.min 255 (life * 2)).

(** [Particle.draw]: the circles drawn, in order. *)
Definition Particle_draw (p : Particle) : list Circle :=
  (if (1 <? length (p_trail p))%nat then
     map (fun '(i, pos) =>
            mkCircle (p_color p)
                     (Some (particle_trail_alpha i (length (p_trail p))
                                                 (p_life p)))
                     (py_int (fst pos), py_int (snd pos))
                     (Z.max 1 (p_size p / 2)))
         (enumerate (p_trail p))
   else [])
  ++ [ mkCircle (p_color p) (Some (particle_body_alpha (p_life p)))
                (py_int (p_x p), py_int (p_y p)) (p_size p) ].

(** [Particle.is_alive] *)
Definition Particle_is_alive (p : Particle) : bool :=
  (0 <? p_life p) && Qlt_bool (p_y p) (QZ (HEIGHT + 50)).

(** ** Main-loop vocabulary *)

(** The events [main] reacts to. [MOUSEBUTTONDOWN x y] carries the pointer
    position [pygame.mouse.get_pos()] reports while the event is handled. *)
Inductive Event : Type :=
| QUIT
| MOUSEBUTTONDOWN (x y : Z)
| OTHER.

(** What the pass over the fireworks does, in order; [i] is the index of
    the firework in the snapshot [fireworks[:]]. *)
Inductive Step : Type :=
| StUpdate (i : nat)
| StDraw (i : nat) (drawn : Firework) (circles : list Circle)
| StRemove (i : nat).

(** The state of [main]: its local variables and the two surfaces. *)
Record Game : Type := mkGame {
  fireworks : list Firework;
  running : bool;
  auto_firework : Z;
  screen : Surface;
  trail_surface : Surface
}.

(** Orderings of the steps of a pass: every update before every draw,
    every draw before every removal. *)
Definition updates_before_draws (steps : list Step) : Prop :=
  forall a b i j fw cs,
    nth_error steps a = Some (StDraw i fw cs) ->
    nth_error steps b = Some (StUpdate j) -> (b < a)%nat.

Definition draws_before_removals (steps : list Step) : Prop :=
  forall a b i j fw cs,
    nth_error steps a = Some (StRemove i) ->
    nth_error steps b = Some (StDraw j fw cs) -> (b < a)%nat.

(** A display surface, all of one colour. *)
Definition plain_surface (c : Color) : Surface := mkSurface (fun _ _ => c) None.

(** The two events [main] tells apart. *)
Definition is_QUIT (e : Event) : bool :=
  match e with QUIT => true | _ => false end.

Definition is_MOUSEBUTTONDOWN (e : Event) : bool :=
  match e with MOUSEBUTTONDOWN _ _ => true | _ => false end.

(** Sample oracles and library functions, used to run the program. *)
Definition tape_half : nat -> Q := fun _ => 1 # 2.
Definition tape_cycle : nat -> Q := fun n => Z.of_nat (n mod 10) # 10.
Definition tape_first_half : nat -> Q :=
  fun n => match n with O => 1 # 2 | _ => 0%Q end.
Definition tape_first_high : nat -> Q :=
  fun n => match n with O => 99 # 100 | _ => 0%Q end.
(** Second-order approximations, good enough to run the program. *)
Definition cos_approx (a : Q) : Q := (1 - a * a / 2)%Q.
Definition sin_approx (a : Q) : Q := a.

Section Simulation.

(** The n-th value returned by [random.random()]. *)
Variable tape : nat -> Q.
(** [math.cos] and [math.sin]. *)
Variables cos sin : Q -> Q.

(** *** The [random] module *)

Definition random : Rand Q := fun n => (tape n, S n).

(** [random.uniform(a, b)] is [a + (b - a) * random()]. *)
Definition uniform (a b : Q) : Rand Q :=
  r <- random ;; ret (a + (b - a) * r)%Q.

(** A random integer below [k]: [int(random() * k)]. *)
Definition randbelow (k : Z) : Rand Z :=
  r <- random ;; ret (py_int (r * QZ k)).

(** [random.randint(a, b)] is [a + randbelow(b - a + 1)]. *)
Definition randint (a b : Z) : Rand Z :=
  k <- randbelow (b - a + 1) ;; ret (a + k).

(** [random.choice(seq)] is [seq[randbelow(len(seq))]]. *)
Definition choice {A} (d : A) (l : list A) : Rand A :=
  k <- randbelow (Z.of_nat (length l)) ;; ret (nth (Z.to_nat k) l d).

(** *** Particle *)

(** [Particle.__init__] *)
Definition Particle_init (x y : Q) (color : Color) (speed angle : Q)
    (size : Z) : Rand Particle :=
  decay <- uniform (8 # 10) (99 # 100) ;;
  ret (mkParticle x y color size (cos angle * speed)%Q (sin angle * speed)%Q
                  (1 # 10) 100 decay []).

(** *** Firework (fireworks.py, lines 66-139) *)

(** [Firework.__init__] *)
Definition Firework_init (x target_y : Q) (color : Color) : Rand Firework :=
  u <- uniform 15 20 ;;
  ret (mkFirework x (QZ HEIGHT) target_y color 0 (- u)%Q false [] []).

(** The body of the [for i in range(particle_count)] loop of [explode]:
    [particles] is [self.particles] as the loop goes. *)
Fixpoint explode_loop (fw : Firework) (particle_count : Z)
    (range : list nat) (particles : list Particle)
  : Rand (list Particle) :=
  match range with
  | [] => ret particles
  | i :: range' =>
      let angle := (2 * pi * Qnat i / QZ particle_count)%Q in
      speed <- uniform 2 8 ;;
      size <- randint 2 4 ;;
      particle <- Particle_init (f_x fw) (f_y fw) (f_color fw)
                                speed angle size ;;
      let particles := particles ++ [particle] in
      r <- random ;;
      particles <-
        (if Qlt_bool r (3 # 10) then
           random_angle <- uniform 0 (2 * pi) ;;
           random_speed <- uniform 1 5 ;;
           random_particle <- Particle_init (f_x fw) (f_y fw) (f_color fw)
                                            random_speed random_angle
                                            (size / 2) ;;
           ret (particles ++ [random_particle])
         else ret particles) ;;
      explode_loop fw particle_count range' particles
  end.

(** [Firework.explode] *)
Definition explode (fw : Firework) : Rand Firework :=
  particle_count <- randint 30 60 ;;
  particles <- explode_loop fw particle_count
                 (seq 0 (Z.to_nat particle_count)) (f_particles fw) ;;
  ret (mkFirework (f_x fw) (f_y fw) (f_target_y fw) (f_color fw) (f_vx fw)
                  (f_vy fw) true particles (f_trail fw)).

(** The loop [for particle in self.particles[:]] of [Firework.update]:
    [kept] is the part of [self.particles] already gone through, [snapshot]
    what is left of the copy. *)
Fixpoint update_particles (kept snapshot : list Particle) : list Particle :=
  match snapshot with
  | [] => kept
  | particle :: snapshot' =>
      let particle := Particle_update particle in
      if negb (Particle_is_alive particle)
      then update_particles kept snapshot'
      else update_particles (kept ++ [particle]) snapshot'
  end.

(** [Firework.update] *)
Definition Firework_update (fw : Firework) : Rand Firework :=
  if negb (f_exploded fw) then
    let trail := trail_push 20 (f_trail fw) (f_x fw, f_y fw) in
    let vy := (f_vy fw + (3 # 10))%Q in
    let y := (f_y fw + vy)%Q in
    let fw' := mkFirework (f_x fw) y (f_target_y fw) (f_color fw) (f_vx fw)
                          vy (f_exploded fw) (f_particles fw) trail in
    if Qle_bool 0 vy || Qle_bool y (f_target_y fw)
    then explode fw'
    else ret fw'
  else
    ret (mkFirework (f_x fw) (f_y fw) (f_target_y fw) (f_color fw) (f_vx fw)
                    (f_vy fw) (f_exploded fw)
                    (update_particles [] (f_particles fw)) (f_trail fw)).

(** The alpha of the trail point of index [i] in [Firework.draw]. *)
Definition firework_trail_alpha (i len : nat) : Z :=
  py_int (255 * (Qnat i / Qnat len))%Q.

(** [Firework.draw]: the circles drawn, in order. *)
Definition Firework_draw (fw : Firework) : list Circle :=
  if negb (f_exploded fw) then
    (if (1 <? length (f_trail fw))%nat then
       map (fun '(i, pos) =>
              mkCircle (f_color fw)
                       (Some (firework_trail_alpha i (length (f_trail fw))))
                       (py_int (fst pos), py_int (snd pos)) 2)
           (enumerate (f_trail fw))
     else [])
    ++ [ mkCircle (f_color fw) None (py_int (f_x fw), py_int (f_y fw)) 3 ]
  else flat_map Particle_draw (f_particles fw).

(** [Firework.is_alive] *)
Definition Firework_is_alive (fw : Firework) : bool :=
  if negb (f_exploded fw) then true
  else (0 <? length (f_particles fw))%nat.

(** *** main (fireworks.py, lines 141-190) *)

(** One iteration of [for event in pygame.event.get()]. *)
Definition handle_event (g : Game) (e : Event) : Rand Game :=
  match e with
  | QUIT =>
      ret (mkGame (fireworks g) false (auto_firework g)
                  (screen g) (trail_surface g))
  | MOUSEBUTTONDOWN x y =>
      color <- choice BLACK COLORS ;;
      fw <- Firework_init (QZ x) (QZ y) color ;;
      ret (mkGame (fireworks g ++ [fw]) (running g) (auto_firework g)
                  (screen g) (trail_surface g))
  | OTHER => ret g
  end.

Fixpoint handle_events (g : Game) (events : list Event) : Rand Game :=
  match events with
  | [] => ret g
  | e :: events' => g' <- handle_event g e ;; handle_events g' events'
  end.

(** Lines 162-168: the automatic fireworks.  The result is the new list of
    fireworks and the new value of the counter [auto_firework]. *)
Definition auto_spawn (fws : list Firework) (auto_firework : Z)
  : Rand (list Firework * Z) :=
  let auto_firework := auto_firework + 1 in
  threshold <- randint 30 60 ;;
  if threshold <? auto_firework then
    x <- randint 50 (WIDTH - 50) ;;
    target_y <- randint 50 (HEIGHT / 2) ;;
    color <- choice BLACK COLORS ;;
    fw <- Firework_init (QZ x) (QZ target_y) color ;;
    ret (fws ++ [fw], 0)
  else ret (fws, auto_firework).

(** The threshold the counter is compared against by the [auto_spawn] that
    starts at tape position [n]. *)
Definition threshold_at (n : nat) : Z := fst (randint 30 60 n).

(** Lines 176-180: the pass over [fireworks[:]].  [kept] is the part of
    [fireworks] already gone through, [snapshot] what is left of the copy,
    [i] the index of its head in the copy.  The result is the new
    [fireworks] and what was done, in order. *)
Fixpoint update_and_draw (i : nat) (kept snapshot : list Firework)
  : Rand (list Firework * list Step) :=
  match snapshot with
  | [] => ret (kept, [])
  | firework :: snapshot' =>
      firework <- Firework_update firework ;;
      let circles := Firework_draw firework in
      if negb (Firework_is_alive firework) then
        r <- update_and_draw (S i) kept snapshot' ;;
        ret (fst r,
             StUpdate i :: StDraw i firework circles :: StRemove i :: snd r)
      else
        r <- update_and_draw (S i) (kept ++ [firework]) snapshot' ;;
        ret (fst r, StUpdate i :: StDraw i firework circles :: snd r)
  end.

(** One iteration of [while running], given the events the iteration
    receives.  The text, [flip] and [clock.tick] are left out. *)
Definition frame (g : Game) (events : list Event) : Rand (Game * list Step) :=
  g <- handle_events g events ;;
  spawned <- auto_spawn (fireworks g) (auto_firework g) ;;
  let cleared := clear_screen (screen g) (trail_surface g) in
  r <- update_and_draw 0 [] (fst spawned) ;;
  ret (mkGame (fst r) (running g) (snd spawned) (fst cleared) (snd cleared),
       snd r).

(** [main]: the loop runs while [running], one list of events per frame
    (the inputs end when the list does). *)
Fixpoint main_loop (g : Game) (inputs : list (list Event))
  : Rand (Game * list (list Step)) :=
  match inputs with
  | [] => ret (g, [])
  | events :: inputs' =>
      if running g then
        r <- frame g events ;;
        r' <- main_loop (fst r) inputs' ;;
        ret (fst r', snd r :: snd r')
      else ret (g, [])
  end.

Definition initial_game (display : Surface) : Game :=
  mkGame [] true 0 display new_trail_surface.

(** *** Runs and reachable states *)

(** [k] successive calls of [Firework.update]. *)
Fixpoint updates (k : nat) (fw : Firework) : Rand Firework :=
  match k with
  | O => ret fw
  | S k' => fw' <- Firework_update fw ;; updates k' fw'
  end.

(** [k] successive calls of [Particle.update]. *)
Fixpoint Particle_updates (k : nat) (p : Particle) : Particle :=
  match k with
  | O => p
  | S k' => Particle_updates k' (Particle_update p)
  end.

(** The states a Firework can be in: made by the constructor, then
    updated any number of times. *)
Inductive reachable : Firework -> Prop :=
| reach_init x target_y color n :
    reachable (fst (Firework_init x target_y color n))
| reach_update fw n :
    reachable fw -> reachable (fst (Firework_update fw n)).

(** The condition under which [Firework.update] calls [explode], on the
    state the physics of that same call has produced. *)
Definition trigger (fw : Firework) : bool :=
  Qle_bool 0 (f_vy fw) || Qle_bool (f_y fw) (f_target_y fw).

(** The state [Firework.update] has produced when it tests whether to
    explode. *)
Definition ascend (fw : Firework) : Firework :=
  mkFirework (f_x fw) (f_y fw + (f_vy fw + (3 # 10)))%Q (f_target_y fw)
             (f_color fw) (f_vx fw) (f_vy fw + (3 # 10))%Q (f_exploded fw)
             (f_particles fw) (trail_push 20 (f_trail fw) (f_x fw, f_y fw)).

(** The particles a burst is made of: one primary particle, and the
    scatter particle that may come with it. *)
Definition burst_particles (g : Particle * option Particle) : list Particle :=
  match snd g with
  | Some s => [fst g; s]
  | None => [fst g]
  end.

(** What [explode] makes of the draws from tape position [m] on, for the
    primary particle of index [i] among [N]: the speed is the draw at [m],
    the size the draw at [m + 1] (the decay factor is the draw at
    [m + 2]). *)
Definition primary_ok (fw : Firework) (N : Z) (i m : nat) (p : Particle)
  : Prop :=
  let angle := (2 * pi * Qnat i / QZ N)%Q in
  let speed := fst (uniform 2 8 m) in
  let size := fst (randint 2 4 (1 + m)%nat) in
  (2 <= speed <= 8)%Q /\ 2 <= size <= 4 /\
  p_x p = f_x fw /\ p_y p = f_y fw /\ p_color p = f_color fw /\
  p_vx p = (cos angle * speed)%Q /\ p_vy p = (sin angle * speed)%Q /\
  p_size p = size /\ p_life p = 100 /\ p_trail p = [].

(** The scatter particle [s] that may come with the primary particle [p]
    made from position [m]: it is there iff the draw at [m + 3] is below
    0.3; its angle is the draw at [m + 4], its speed the draw at [m + 5]
    (its decay factor the draw at [m + 6]). *)
Definition scatter_ok (fw : Firework) (m : nat) (p : Particle)
    (s : option Particle) : Prop :=
  (s <> None <-> (tape (3 + m)%nat < 3 # 10)%Q) /\
  forall sp, s = Some sp ->
    let angle := fst (uniform 0 (2 * pi) (4 + m)%nat) in
    let speed := fst (uniform 1 5 (5 + m)%nat) in
    (0 <= angle < 2 * pi)%Q /\ (1 <= speed <= 5)%Q /\
    p_x sp = f_x fw /\ p_y sp = f_y fw /\ p_color sp = f_color fw /\
    p_vx sp = (cos angle * speed)%Q /\ p_vy sp = (sin angle * speed)%Q /\
    p_size sp = p_size p / 2 /\ p_life sp = 100 /\ p_trail sp = [].

(** [k] successive frames of the automatic fireworks alone. *)
Fixpoint auto_ticks (k : nat) (fws : list Firework) (auto_firework : Z)
  : Rand (list Firework * Z) :=
  match k with
  | O => ret (fws, auto_firework)
  | S k' => r <- auto_spawn fws auto_firework ;; auto_ticks k' (fst r) (snd r)
  end.

(** The automatic fireworks as the specification words them: the threshold
    is drawn once per cycle and held until the counter exceeds it; a new
    one is drawn when a firework is spawned. *)
Definition auto_spawn_held (fws : list Firework)
    (auto_firework threshold : Z) : Rand (list Firework * Z * Z) :=
  let auto_firework := auto_firework + 1 in
  if threshold <? auto_firework then
    x <- randint 50 (WIDTH - 50) ;;
    target_y <- randint 50 (HEIGHT / 2) ;;
    color <- choice BLACK COLORS ;;
    fw <- Firework_init (QZ x) (QZ target_y) color ;;
    threshold <- randint 30 60 ;;
    ret (fws ++ [fw], 0, threshold)
  else ret (fws, auto_firework, threshold).

Fixpoint auto_ticks_held (k : nat) (fws : list Firework)
    (auto_firework threshold : Z) : Rand (list Firework * Z * Z) :=
  match k with
  | O => ret (fws, auto_firework, threshold)
  | S k' =>
      r <- auto_spawn_held fws auto_firework threshold ;;
      auto_ticks_held k' (fst (fst r)) (snd (fst r)) (snd r)
  end.

(** The steps of one firework in the pass: its update, the drawing of the
    updated state, and its removal when that state is dead. *)
Definition firework_steps (i : nat) (updated : Firework) : list Step :=
  StUpdate i :: StDraw i updated (Firework_draw updated)
  :: (if Firework_is_alive updated then [] else [StRemove i]).

(** A firework of the live collection: a reachable state that is alive. *)
Definition live (fw : Firework) : Prop :=
  reachable fw /\ Firework_is_alive fw = true.

(** The states the fireworks of a snapshot are in after their [update()],
    the first updated from tape position [n], each of the others from the
    position the update before it has left. *)
Fixpoint update_each (snapshot : list Firework) (n : nat) : list Firework :=
  match snapshot with
  | [] => []
  | fw :: snapshot' =>
      fst (Firework_update fw n)
      :: update_each snapshot' (snd (Firework_update fw n))
  end.

(** ** Properties *)

(** *** Numbers and trails *)

Lemma Qlt_bool_iff (a b : Q) : Qlt_bool a b = true <-> (a < b)%Q.
Proof.
  unfold Qlt_bool. rewrite negb_true_iff.
  split; intro H.
  - apply Qnot_le_lt. intro Hle. apply Qle_bool_iff in Hle. congruence.
  - destruct (Qle_bool b a) eqn:E; [|reflexivity].
    apply Qle_bool_iff in E. exfalso. revert E. apply Qlt_not_le, H.
Qed.

Lemma Qle_bool_false_iff (a b : Q) : Qle_bool a b = false <-> (b < a)%Q.
Proof.
  rewrite <- Qlt_bool_iff. unfold Qlt_bool. apply iff_sym, negb_true_iff.
Qed.

Lemma trail_push_length {A} (cap : nat) (tr : list A) (p : A) :
  (length tr <= cap)%nat -> (length (trail_push cap tr p) <= cap)%nat.
Proof.
  intro H. unfold trail_push.
  destruct (Nat.ltb_spec cap (length (tr ++ [p]))) as [Hlt | Hle]; [|exact Hle].
  rewrite length_tl, length_app. simpl. lia.
Qed.

Lemma py_int_nonneg (q : Q) : (0 <= q)%Q -> py_int q = Qfloor q.
Proof.
  intro H. unfold py_int. apply Qle_bool_iff in H. now rewrite H.
Qed.

Lemma Qfloor_bounds (q : Q) (lo hi : Z) :
  (QZ lo <= q)%Q -> (q < QZ hi)%Q -> lo <= Qfloor q < hi.
Proof.
  unfold QZ. intros Hlo Hhi. split.
  - apply Qfloor_resp_le in Hlo. now rewrite Qfloor_Z in Hlo.
  - assert (H : (inject_Z (Qfloor q) < inject_Z hi)%Q).
    { eapply Qle_lt_trans; [apply Qfloor_le | exact Hhi]. }
    now rewrite <- Zlt_Qlt in H.
Qed.

Lemma enumerate_In {A} (l : list A) (i : nat) (a : A) :
  In (i, a) (enumerate l) -> (i < length l)%nat.
Proof.
  unfold enumerate. intro H. apply in_combine_l in H.
  apply in_seq in H. lia.
Qed.

Lemma enumerate_length {A} (l : list A) : length (enumerate l) = length l.
Proof.
  unfold enumerate. rewrite length_combine, length_seq. lia.
Qed.

(** *** The random oracle *)

Hypothesis tape_unit : forall n, (0 <= tape n < 1)%Q.

Lemma uniform_range (a b : Q) (n : nat) :
  (a <= b)%Q -> (a <= fst (uniform a b n) <= b)%Q.
Proof.
  intro Hab. unfold uniform, bind, random, ret. simpl.
  destruct (tape_unit n) as [H0 H1]. split; nra.
Qed.

Lemma uniform_range_strict (a b : Q) (n : nat) :
  (a < b)%Q -> (a <= fst (uniform a b n) < b)%Q.
Proof.
  intro Hab. unfold uniform, bind, random, ret. simpl.
  destruct (tape_unit n) as [H0 H1]. split; nra.
Qed.

Lemma uniform_next (a b : Q) (n : nat) : snd (uniform a b n) = S n.
Proof. reflexivity. Qed.

Lemma randbelow_range (k : Z) (n : nat) :
  0 < k -> 0 <= fst (randbelow k n) < k.
Proof.
  intro Hk. unfold randbelow, bind, random, ret. simpl.
  destruct (tape_unit n) as [H0 H1].
  assert (Hq : (0 < QZ k)%Q).
  { unfold QZ. change 0%Q with (inject_Z 0). now rewrite <- Zlt_Qlt. }
  assert (Hr : (QZ 0 <= tape n * QZ k)%Q /\ (tape n * QZ k < QZ k)%Q).
  { change (QZ 0) with 0%Q. revert Hq. generalize (QZ k). intros q Hq.
    split; nra. }
  rewrite py_int_nonneg by apply Hr.
  apply Qfloor_bounds; apply Hr.
Qed.

Lemma randint_range (a b : Z) (n : nat) :
  a <= b -> a <= fst (randint a b n) <= b.
Proof.
  intro Hab. unfold randint, bind, ret.
  pose proof (randbelow_range (b - a + 1) n ltac:(lia)) as H.
  destruct (randbelow (b - a + 1) n) as [k n']. simpl in *. lia.
Qed.

Lemma randint_next (a b : Z) (n : nat) : snd (randint a b n) = S n.
Proof. reflexivity. Qed.

Lemma choice_In {A} (d : A) (l : list A) (n : nat) :
  l <> [] -> In (fst (choice d l n)) l.
Proof.
  intro Hl. unfold choice, bind, ret.
  assert (Hlen : 0 < Z.of_nat (length l)).
  { destruct l; [congruence | simpl; lia]. }
  pose proof (randbelow_range _ n Hlen) as H.
  destruct (randbelow (Z.of_nat (length l)) n) as [k n']. simpl in *.
  apply nth_In. lia.
Qed.

Lemma choice_next {A} (d : A) (l : list A) (n : nat) :
  snd (choice d l n) = S n.
Proof. reflexivity. Qed.

(** *** Particle *)

Lemma trail_push_below {A} (cap : nat) (tr : list A) (p : A) :
  (length tr < cap)%nat -> trail_push cap tr p = tr ++ [p].
Proof.
  intro H. unfold trail_push.
  destruct (Nat.ltb_spec cap (length (tr ++ [p]))) as [Hlt | Hle];
    [|reflexivity].
  rewrite length_app in Hlt. simpl in Hlt. lia.
Qed.

Lemma trail_push_full {A} (cap : nat) (tr : list A) (p : A) :
  (0 < cap)%nat -> length tr = cap -> trail_push cap tr p = tl tr ++ [p].
Proof.
  intros Hc H. unfold trail_push.
  destruct (Nat.ltb_spec cap (length (tr ++ [p]))) as [Hlt | Hle].
  - destruct tr; [simpl in H; lia | reflexivity].
  - rewrite length_app in Hle. simpl in Hle. lia.
Qed.

Lemma Particle_dead (p : Particle) :
  p_life p <= 0 -> Particle_is_alive p = false.
Proof.
  intro H. unfold Particle_is_alive.
  destruct (Z.ltb_spec 0 (p_life p)); [lia | reflexivity].
Qed.

Lemma Particle_alive_life (p : Particle) :
  Particle_is_alive p = true -> 0 < p_life p.
Proof.
  unfold Particle_is_alive. intro H. apply andb_true_iff in H.
  now apply Z.ltb_lt.
Qed.

Lemma Particle_updates_snoc (k : nat) (p : Particle) :
  Particle_updates (S k) p = Particle_update (Particle_updates k p).
Proof.
  revert p. induction k as [|k IH]; intro p; [reflexivity|].
  change (Particle_updates (S (S k)) p)
    with (Particle_updates (S k) (Particle_update p)).
  rewrite IH. reflexivity.
Qed.

Lemma Particle_updates_inv (k : nat) (p : Particle) :
  let p' := Particle_updates k p in
  p_gravity p' = p_gravity p /\ p_decay p' = p_decay p /\
  p_life p' = p_life p - Z.of_nat k /\
  ((length (p_trail p) <= 10)%nat -> (length (p_trail p') <= 10)%nat).
Proof.
  revert p. induction k as [|k IH]; intro p.
  - simpl. repeat split; auto; lia.
  - specialize (IH (Particle_update p)). simpl in *.
    destruct IH as (Hg & Hd & Hl & Ht).
    repeat split; try assumption.
    + lia.
    + intro H. apply Ht. now apply trail_push_length.
Qed.

Lemma Particle_init_fields (x y : Q) (color : Color) (speed angle : Q)
    (size : Z) (n : nat) :
  let p := fst (Particle_init x y color speed angle size n) in
  p_x p = x /\ p_y p = y /\ p_color p = color /\ p_size p = size /\
  p_vx p = (cos angle * speed)%Q /\ p_vy p = (sin angle * speed)%Q /\
  p_gravity p = 1 # 10 /\ p_life p = 100 /\ p_trail p = [] /\
  p_decay p = fst (uniform (8 # 10) (99 # 100) n) /\
  snd (Particle_init x y color speed angle size n) = S n.
Proof. simpl. repeat split. Qed.

(** C5. Every [Particle.update()], on a particle the constructor made and
    that was updated any number [k] of times since: appends the current
    position to the trail and evicts the oldest entry when the length
    exceeds 10; scales [vx] and [vy] by the decay factor, then adds the
    gravity constant 0.1 to [vy]; adds the new [vx], [vy] to the position;
    takes exactly 1 off [life] (which is [100 - k] before the call); and
    once [life] is [<= 0], [is_alive()] is false. *)
Theorem Particle_update_spec (x y : Q) (color : Color) (speed angle : Q)
    (size : Z) (n : nat) (k : nat) :
  let p := Particle_updates k
             (fst (Particle_init x y color speed angle size n)) in
  let p' := Particle_update p in
  ((length (p_trail p) < 10)%nat ->
     p_trail p' = p_trail p ++ [(p_x p, p_y p)]) /\
  (length (p_trail p) = 10%nat ->
     p_trail p' = tl (p_trail p) ++ [(p_x p, p_y p)]) /\
  (length (p_trail p) <= 10)%nat /\
  p_vx p' = (p_vx p * p_decay p)%Q /\
  p_vy p' = (p_vy p * p_decay p + (1 # 10))%Q /\
  p_x p' = (p_x p + p_vx p')%Q /\
  p_y p' = (p_y p + p_vy p')%Q /\
  p_life p = 100 - Z.of_nat k /\
  p_life p' = p_life p - 1 /\
  p_color p' = p_color p /\ p_size p' = p_size p /\
  p_decay p' = p_decay p /\
  (p_life p' <= 0 -> Particle_is_alive p' = false).
Proof.
  intros p p'.
  destruct (Particle_updates_inv k
              (fst (Particle_init x y color speed angle size n)))
    as (Hg & Hd & Hl & Ht).
  fold p in Hg, Hd, Hl, Ht. simpl in Hg, Hl.
  specialize (Ht (Nat.le_0_l _)).
  repeat split; try reflexivity; try assumption.
  - intro H. apply trail_push_below, H.
  - intro H. apply trail_push_full; [lia | exact H].
  - unfold p'. simpl. now rewrite Hg.
  - apply Particle_dead.
Qed.

(** *** Firework: one update *)

Lemma explode_fields (fw : Firework) (n : nat) :
  let fw' := fst (explode fw n) in
  f_x fw' = f_x fw /\ f_y fw' = f_y fw /\ f_target_y fw' = f_target_y fw /\
  f_color fw' = f_color fw /\ f_vx fw' = f_vx fw /\ f_vy fw' = f_vy fw /\
  f_trail fw' = f_trail fw /\ f_exploded fw' = true.
Proof.
  unfold explode, bind, ret.
  destruct (randint 30 60 n) as [pc n1].
  destruct (explode_loop fw pc (seq 0 (Z.to_nat pc)) (f_particles fw) n1)
    as [ps n2].
  simpl. repeat split.
Qed.

Lemma Firework_update_ascending (fw : Firework) (n : nat) :
  f_exploded fw = false ->
  Firework_update fw n =
    if trigger (ascend fw) then explode (ascend fw) n else (ascend fw, n).
Proof.
  intro H. unfold Firework_update, trigger, ascend.
  cbn [f_vy f_y f_target_y]. rewrite H. cbn [negb].
  destruct (Qle_bool _ _ || Qle_bool _ _); reflexivity.
Qed.

Lemma Firework_update_exploded (fw : Firework) (n : nat) :
  f_exploded fw = true ->
  Firework_update fw n =
    (mkFirework (f_x fw) (f_y fw) (f_target_y fw) (f_color fw) (f_vx fw)
                (f_vy fw) true (update_particles [] (f_particles fw))
                (f_trail fw), n).
Proof.
  intro H. unfold Firework_update. rewrite H. reflexivity.
Qed.

Lemma Firework_update_ascending_fields (fw : Firework) (n : nat) :
  f_exploded fw = false ->
  let fw' := fst (Firework_update fw n) in
  f_x fw' = f_x fw /\
  f_vy fw' = (f_vy fw + (3 # 10))%Q /\
  f_y fw' = (f_y fw + f_vy fw')%Q /\
  f_target_y fw' = f_target_y fw /\
  f_color fw' = f_color fw /\ f_vx fw' = f_vx fw /\
  f_trail fw' = trail_push 20 (f_trail fw) (f_x fw, f_y fw) /\
  f_exploded fw' = trigger fw'.
Proof.
  intro H. rewrite (Firework_update_ascending fw n H).
  destruct (trigger (ascend fw)) eqn:T.
  - destruct (explode_fields (ascend fw) n)
      as (Hx & Hy & Ht & Hc & Hvx & Hvy & Htr & He).
    cbv zeta. rewrite Hx, Hvy, Hy, Ht, Hc, Hvx, Htr, He.
    unfold trigger. rewrite Hvy, Hy, Ht.
    repeat split. symmetry. exact T.
  - simpl. repeat split. rewrite H. symmetry. exact T.
Qed.

Lemma Firework_update_frozen (fw : Firework) (n : nat) :
  f_exploded fw = true ->
  let fw' := fst (Firework_update fw n) in
  f_x fw' = f_x fw /\ f_y fw' = f_y fw /\ f_vy fw' = f_vy fw /\
  f_vx fw' = f_vx fw /\ f_target_y fw' = f_target_y fw /\
  f_color fw' = f_color fw /\ f_trail fw' = f_trail fw /\
  f_exploded fw' = true /\
  snd (Firework_update fw n) = n.
Proof.
  intro H. rewrite (Firework_update_exploded fw n H). simpl. repeat split.
Qed.

(** *** Firework: runs *)

Lemma updates_add (j d : nat) (fw : Firework) (n : nat) :
  updates (j + d) fw n =
    updates d (fst (updates j fw n)) (snd (updates j fw n)).
Proof.
  revert fw n. induction j as [|j IH]; intros fw n; [reflexivity|].
  simpl. unfold bind. destruct (Firework_update fw n) as [fw1 n1].
  apply IH.
Qed.

Lemma updates_snoc (j : nat) (fw : Firework) (n : nat) :
  updates (S j) fw n =
    Firework_update (fst (updates j fw n)) (snd (updates j fw n)).
Proof.
  replace (S j) with (j + 1)%nat by lia. rewrite updates_add.
  simpl. unfold bind.
  destruct (Firework_update (fst (updates j fw n)) (snd (updates j fw n))).
  reflexivity.
Qed.

Lemma exploded_stays (d : nat) (fw : Firework) (n : nat) :
  f_exploded fw = true -> f_exploded (fst (updates d fw n)) = true.
Proof.
  revert fw n. induction d as [|d IH]; intros fw n H; [exact H|].
  simpl. unfold bind.
  pose proof (Firework_update_frozen fw n H) as F.
  destruct (Firework_update fw n) as [fw1 n1]. simpl in F.
  apply IH. apply F.
Qed.

Lemma exploded_mono (j j' : nat) (fw : Firework) (n : nat) :
  (j <= j')%nat ->
  f_exploded (fst (updates j fw n)) = true ->
  f_exploded (fst (updates j' fw n)) = true.
Proof.
  intros Hle H. replace j' with (j + (j' - j))%nat by lia.
  rewrite updates_add. now apply exploded_stays.
Qed.

Lemma Qnat_S (k : nat) : (Qnat (S k) == Qnat k + 1)%Q.
Proof.
  unfold Qnat. rewrite Nat2Z.inj_succ, <- Z.add_1_r, inject_Z_plus.
  reflexivity.
Qed.

Lemma explodes_within (K : nat) (fw : Firework) (n : nat) :
  f_exploded fw = false ->
  (0 <= f_vy fw + Qnat (S K) * (3 # 10))%Q ->
  f_exploded (fst (updates (S K) fw n)) = true.
Proof.
  revert fw n. induction K as [|K IH]; intros fw n He Hv.
  - rewrite updates_snoc. simpl.
    destruct (Firework_update_ascending_fields fw n He)
      as (_ & Hvy & _ & _ & _ & _ & _ & Hex).
    rewrite Hex. unfold trigger. rewrite Hvy.
    apply orb_true_iff. left. apply Qle_bool_iff.
    change (Qnat 1) with 1%Q in Hv. lra.
  - change (updates (S (S K)) fw n)
      with (bind (Firework_update fw) (fun fw' => updates (S K) fw') n).
    unfold bind.
    destruct (Firework_update_ascending_fields fw n He)
      as (_ & Hvy & _ & _ & _ & _ & _ & _).
    destruct (Firework_update fw n) as [fw1 n1]. simpl in Hvy.
    destruct (f_exploded fw1) eqn:E1.
    + now apply exploded_stays.
    + apply IH; [exact E1|]. rewrite Hvy.
      rewrite (Qnat_S (S K)) in Hv. lra.
Qed.

Lemma explodes_eventually (fw : Firework) (n : nat) :
  f_exploded fw = false ->
  exists K, f_exploded (fst (updates (S K) fw n)) = true.
Proof.
  intro He.
  exists (Z.to_nat (Qceiling (- f_vy fw * (10 # 3)))).
  apply explodes_within; [exact He|].
  set (c := Qceiling (- f_vy fw * (10 # 3))).
  pose proof (Qle_ceiling (- f_vy fw * (10 # 3))) as Hc. fold c in Hc.
  assert (Hn : (inject_Z c <= Qnat (Z.to_nat c))%Q).
  { unfold Qnat. rewrite <- Zle_Qle. lia. }
  rewrite Qnat_S. lra.
Qed.

(** The first explosion: a run that ends exploded and did not start so
    has exactly one update at which the flag goes up. *)
Lemma first_explosion (K : nat) (fw : Firework) (n : nat) :
  f_exploded fw = false ->
  f_exploded (fst (updates K fw n)) = true ->
  exists k, (k < K)%nat /\
    f_exploded (fst (updates k fw n)) = false /\
    f_exploded (fst (updates (S k) fw n)) = true.
Proof.
  intro H0. induction K as [|K IH]; intro HK.
  - simpl in HK. congruence.
  - destruct (f_exploded (fst (updates K fw n))) eqn:E.
    + destruct (IH eq_refl) as (k & Hk & Hf & Ht).
      exists k. repeat split; [lia | exact Hf | exact Ht].
    + exists K. repeat split; [lia | exact E | exact HK].
Qed.

(** C3. For every Firework in the ascending phase, [update()] appends
    [(x, y)] to the ascent trail (capped at 20, oldest evicted first), adds
    the constant 0.3 to [vy], adds the new [vy] to [y], and explodes exactly
    when [vy >= 0] or [y <= target_y] then holds.  Over successive updates
    the transition to the exploded phase happens exactly once: there is one
    [k] such that the firework is exploded after [j] updates iff [k < j];
    the condition fails after each of the first [k] updates and holds after
    update [k + 1]. *)
Theorem ascending_update_spec (fw : Firework) (n : nat) :
  f_exploded fw = false ->
  (let fw' := fst (Firework_update fw n) in
   ((length (f_trail fw) < 20)%nat ->
      f_trail fw' = f_trail fw ++ [(f_x fw, f_y fw)]) /\
   (length (f_trail fw) = 20%nat ->
      f_trail fw' = tl (f_trail fw) ++ [(f_x fw, f_y fw)]) /\
   ((length (f_trail fw) <= 20)%nat -> (length (f_trail fw') <= 20)%nat) /\
   f_vy fw' = (f_vy fw + (3 # 10))%Q /\
   f_y fw' = (f_y fw + f_vy fw')%Q /\
   f_x fw' = f_x fw /\ f_target_y fw' = f_target_y fw /\
   f_exploded fw' =
     Qle_bool 0 (f_vy fw') || Qle_bool (f_y fw') (f_target_y fw')) /\
  exists k : nat,
    (forall j, f_exploded (fst (updates j fw n)) = true <-> (k < j)%nat) /\
    (forall j, (1 <= j <= k)%nat ->
               trigger (fst (updates j fw n)) = false) /\
    trigger (fst (updates (S k) fw n)) = true.
Proof.
  intro He. split.
  - destruct (Firework_update_ascending_fields fw n He)
      as (Hx & Hvy & Hy & Ht & _ & _ & Htr & Hex).
    cbv zeta. rewrite Htr.
    repeat split; try assumption.
    + intro H. apply trail_push_below, H.
    + intro H. apply trail_push_full; [lia | exact H].
    + apply trail_push_length.
  - destruct (explodes_eventually fw n He) as [K HK].
    destruct (first_explosion (S K) fw n He HK) as (k & _ & Hf & Ht).
    assert (Hiff : forall j,
               f_exploded (fst (updates j fw n)) = true <-> (k < j)%nat).
    { intro j. split.
      - intro Hj. destruct (Nat.le_gt_cases j k) as [Hle | Hgt]; [|exact Hgt].
        pose proof (exploded_mono j k fw n Hle Hj). congruence.
      - intro Hj. apply (exploded_mono (S k) j fw n); [lia | exact Ht]. }
    assert (Hstep : forall j, (j <= k)%nat ->
               f_exploded (fst (updates (S j) fw n))
               = trigger (fst (updates (S j) fw n))).
    { intros j Hj. rewrite updates_snoc.
      apply Firework_update_ascending_fields.
      destruct (f_exploded (fst (updates j fw n))) eqn:E; [|reflexivity].
      apply Hiff in E. lia. }
    exists k. split; [exact Hiff | split].
    + intros j Hj. destruct j as [|j]; [lia|].
      rewrite <- Hstep by lia.
      destruct (f_exploded (fst (updates (S j) fw n))) eqn:E; [|reflexivity].
      apply Hiff in E. lia.
    + rewrite <- Hstep by lia. exact Ht.
Qed.

(** *** Firework: reachable states *)

Lemma reachable_updates (k : nat) (fw : Firework) (n : nat) :
  reachable fw -> reachable (fst (updates k fw n)).
Proof.
  revert fw n. induction k as [|k IH]; intros fw n H; [exact H|].
  simpl. unfold bind.
  pose proof (reach_update fw n H) as H1.
  destruct (Firework_update fw n) as [fw1 n1]. now apply IH.
Qed.

Lemma ascending_no_particles (fw : Firework) :
  reachable fw -> f_exploded fw = false -> f_particles fw = [].
Proof.
  induction 1 as [x ty c n | fw n Hr IH]; intro He.
  - reflexivity.
  - destruct (f_exploded fw) eqn:E.
    + destruct (Firework_update_frozen fw n E) as (_&_&_&_&_&_&_&H&_).
      congruence.
    + rewrite (Firework_update_ascending fw n E) in He |- *.
      destruct (trigger (ascend fw)).
      * destruct (explode_fields (ascend fw) n) as (_&_&_&_&_&_&_&H).
        congruence.
      * simpl. now apply IH.
Qed.

Lemma updates_frozen (k : nat) (fw : Firework) (n : nat) :
  f_exploded fw = true ->
  let fw' := fst (updates k fw n) in
  f_x fw' = f_x fw /\ f_y fw' = f_y fw /\ f_vy fw' = f_vy fw /\
  f_trail fw' = f_trail fw /\ f_exploded fw' = true.
Proof.
  revert fw n. induction k as [|k IH]; intros fw n He.
  - simpl. auto.
  - simpl. unfold bind.
    destruct (Firework_update_frozen fw n He)
      as (Hx & Hy & Hvy & _ & _ & _ & Htr & Hex & _).
    destruct (Firework_update fw n) as [fw1 n1]. simpl in *.
    destruct (IH fw1 n1 Hex) as (Hx' & Hy' & Hvy' & Htr' & Hex').
    repeat split; congruence.
Qed.

(** C7. For every reachable Firework state: while [exploded] is false the
    particles collection is empty; once [exploded] is true, no later
    [update()], however many follow, changes [x], [y], [vy] or the ascent
    trail, and [exploded] stays true. *)
Theorem firework_phase_invariant (fw : Firework) :
  reachable fw ->
  (f_exploded fw = false -> f_particles fw = []) /\
  (f_exploded fw = true ->
   forall (k n : nat),
     let fw' := fst (updates k fw n) in
     f_x fw' = f_x fw /\ f_y fw' = f_y fw /\ f_vy fw' = f_vy fw /\
     f_trail fw' = f_trail fw /\ f_exploded fw' = true).
Proof.
  intro Hr. split.
  - now apply ascending_no_particles.
  - intros He k n. now apply updates_frozen.
Qed.

(** *** Spawning *)

Lemma Firework_init_fields (x target_y : Q) (color : Color) (n : nat) :
  fst (Firework_init x target_y color n)
  = mkFirework x (QZ HEIGHT) target_y color 0
               (- fst (uniform 15 20 n))%Q false [] [].
Proof. reflexivity. Qed.

Lemma handle_mouse (g : Game) (x y : Z) (n : nat) :
  fst (handle_event g (MOUSEBUTTONDOWN x y) n)
  = mkGame (fireworks g ++
              [fst (Firework_init (QZ x) (QZ y)
                                  (fst (choice BLACK COLORS n)) (S n))])
           (running g) (auto_firework g) (screen g) (trail_surface g).
Proof. reflexivity. Qed.

Lemma low_target_explodes (x target_y : Q) (color : Color) (n m : nat) :
  (QZ HEIGHT - (147 # 10) <= target_y)%Q ->
  f_exploded
    (fst (Firework_update (fst (Firework_init x target_y color n)) m)) = true.
Proof.
  intro Hty.
  pose proof (uniform_range 15 20 n ltac:(lra)) as Hu.
  rewrite Firework_init_fields.
  match goal with |- f_exploded (fst (Firework_update ?f m)) = true =>
    destruct (Firework_update_ascending_fields f m eq_refl)
      as (_ & Hvy & Hy & Ht & _ & _ & _ & Hex)
  end.
  rewrite Hex. unfold trigger. rewrite Hy, Hvy, Ht.
  cbn [f_y f_vy f_target_y].
  apply orb_true_iff. right. apply Qle_bool_iff.
  change (QZ HEIGHT) with 600%Q in *. lra.
Qed.

(** C10. Every Firework is constructed with [y] equal to the viewport
    height and [vx = 0] whatever the target given, the spawn request's
    y-coordinate being used as [target_y] only (the initial [vy], drawn in
    [[-20, -15]], does not depend on it); a mouse click at [(mx, my)] spawns
    such a Firework with [target_y = my]; and when the target is at least
    [HEIGHT - 14.7], the firework explodes on its very first [update()]. *)
Theorem spawn_near_bottom_explodes_at_once :
  (forall (x target_y : Q) (color : Color) (n : nat),
     let fw := fst (Firework_init x target_y color n) in
     f_y fw = QZ HEIGHT /\ f_vx fw = 0%Q /\ f_x fw = x /\
     f_target_y fw = target_y /\ f_color fw = color /\
     f_exploded fw = false /\ f_particles fw = [] /\ f_trail fw = [] /\
     f_vy fw = (- fst (uniform 15 20 n))%Q /\
     (- (20) <= f_vy fw <= - (15))%Q /\
     ((QZ HEIGHT - (147 # 10) <= target_y)%Q ->
      forall m, f_exploded (fst (Firework_update fw m)) = true)) /\
  (forall (g : Game) (mx my : Z) (n : nat),
     exists (color : Color) (n' : nat),
       fireworks (fst (handle_event g (MOUSEBUTTONDOWN mx my) n))
       = fireworks g ++ [fst (Firework_init (QZ mx) (QZ my) color n')]).
Proof.
  split.
  - intros x ty color n fw.
    pose proof (uniform_range 15 20 n ltac:(lra)) as Hu.
    unfold fw. rewrite Firework_init_fields. cbn [f_y f_vx f_x f_target_y
      f_color f_exploded f_particles f_trail f_vy].
    repeat split; try lra.
    intros Hty m. rewrite <- Firework_init_fields.
    now apply low_target_explodes.
  - intros g mx my n. rewrite handle_mouse. cbn [fireworks]. eauto.
Qed.

(** *** The burst *)

Lemma explode_loop_step (fw : Firework) (N : Z) (i : nat) (range : list nat)
    (ps : list Particle) (n : nat) :
  let p := fst (Particle_init (f_x fw) (f_y fw) (f_color fw)
                  (fst (uniform 2 8 n)) (2 * pi * Qnat i / QZ N)%Q
                  (fst (randint 2 4 (1 + n)%nat)) (2 + n)%nat) in
  let sp := fst (Particle_init (f_x fw) (f_y fw) (f_color fw)
                   (fst (uniform 1 5 (5 + n)%nat))
                   (fst (uniform 0 (2 * pi) (4 + n)%nat))
                   (p_size p / 2) (6 + n)%nat) in
  explode_loop fw N (i :: range) ps n =
    if Qlt_bool (tape (3 + n)%nat) (3 # 10)
    then explode_loop fw N range ((ps ++ [p]) ++ [sp]) (7 + n)%nat
    else explode_loop fw N range (ps ++ [p]) (4 + n)%nat.
Proof.
  cbv zeta. cbn [explode_loop]. unfold bind at 1 2 3 4.
  cbn [uniform randint randbelow random bind ret Particle_init fst snd].
  unfold bind, ret, random. cbn [fst snd Nat.add p_size].
  destruct (Qlt_bool (tape (S (S (S n)))) (3 # 10)); reflexivity.
Qed.

Lemma primary_made (fw : Firework) (N : Z) (i n : nat) :
  primary_ok fw N i n
    (fst (Particle_init (f_x fw) (f_y fw) (f_color fw)
            (fst (uniform 2 8 n)) (2 * pi * Qnat i / QZ N)%Q
            (fst (randint 2 4 (1 + n)%nat)) (2 + n)%nat)).
Proof.
  unfold primary_ok. cbv zeta.
  split; [apply uniform_range; lra|].
  split; [apply randint_range; lia|].
  repeat split.
Qed.

Lemma scatter_made (fw : Firework) (n : nat) (p : Particle) :
  (tape (3 + n)%nat < 3 # 10)%Q ->
  scatter_ok fw n p
    (Some (fst (Particle_init (f_x fw) (f_y fw) (f_color fw)
                  (fst (uniform 1 5 (5 + n)%nat))
                  (fst (uniform 0 (2 * pi) (4 + n)%nat))
                  (p_size p / 2) (6 + n)%nat))).
Proof.
  intro Hc. split; [split; [intros _; exact Hc | discriminate]|].
  intros sp Hsp. injection Hsp as <-. cbv zeta.
  split; [apply uniform_range_strict; unfold pi; lra|].
  split; [apply uniform_range; lra|].
  repeat split.
Qed.

Lemma scatter_none (fw : Firework) (n : nat) (p : Particle) :
  ~ (tape (3 + n)%nat < 3 # 10)%Q -> scatter_ok fw n p None.
Proof.
  intro Hc. split; [split; [congruence | intro H; contradiction]|].
  discriminate.
Qed.

Lemma explode_loop_spec (fw : Firework) (N : Z) (len : nat) :
  forall (i0 : nat) (ps : list Particle) (n0 : nat),
  exists bursts : list (nat * (Particle * option Particle)),
    fst (explode_loop fw N (seq i0 len) ps n0)
      = ps ++ flat_map (fun b => burst_particles (snd b)) bursts /\
    length bursts = len /\
    (forall i m b, nth_error bursts i = Some (m, b) ->
       (n0 <= m)%nat /\
       primary_ok fw N (i0 + i) m (fst b) /\
       scatter_ok fw m (fst b) (snd b)) /\
    (forall i j mi bi mj bj, (i < j)%nat ->
       nth_error bursts i = Some (mi, bi) ->
       nth_error bursts j = Some (mj, bj) ->
       (mi + 4 <= mj)%nat /\ (snd bi <> None -> (mi + 7 <= mj)%nat)).
Proof.
  induction len as [|len IH]; intros i0 ps n0.
  - exists []. simpl. rewrite app_nil_r.
    repeat split; try (intros [|?]; discriminate).
    all: destruct i; discriminate.
  - cbn [seq]. rewrite explode_loop_step.
    set (p := fst (Particle_init _ _ _ (fst (uniform 2 8 n0)) _ _ _)).
    set (sp := fst (Particle_init _ _ _ (fst (uniform 1 5 _)) _ _ _)).
    pose proof (primary_made fw N i0 n0) as Hp. fold p in Hp.
    destruct (Qlt_bool (tape (3 + n0)%nat) (3 # 10)) eqn:Hcoin.
    + apply Qlt_bool_iff in Hcoin.
      pose proof (scatter_made fw n0 p Hcoin) as Hs. fold sp in Hs.
      destruct (IH (S i0) ((ps ++ [p]) ++ [sp]) (7 + n0)%nat)
        as (bs & Hps & Hlen & Hall & Hinc).
      exists ((n0, (p, Some sp)) :: bs).
      split; [|split; [|split]].
      * rewrite Hps. cbn [flat_map snd burst_particles fst].
        rewrite <- !app_assoc. reflexivity.
      * simpl. now rewrite Hlen.
      * intros [|i] m b Hnth.
        -- injection Hnth as <- <-. rewrite Nat.add_0_r. cbn [fst snd].
           split; [lia | split; assumption].
        -- cbn [nth_error] in Hnth.
           destruct (Hall i m b Hnth) as (Hm & Hpr & Hsc).
           replace (i0 + S i)%nat with (S i0 + i)%nat by lia.
           split; [lia | split; assumption].
      * intros [|i] [|j] mi bi mj bj Hij Hi Hj; try lia.
        -- injection Hi as <- <-. cbn [nth_error] in Hj.
           destruct (Hall j mj bj Hj) as (Hm & _). lia.
        -- cbn [nth_error] in Hi, Hj.
           apply (Hinc i j mi bi mj bj); [lia | assumption | assumption].
    + assert (Hno : ~ (tape (3 + n0)%nat < 3 # 10)%Q).
      { intro H. apply Qlt_bool_iff in H. congruence. }
      pose proof (scatter_none fw n0 p Hno) as Hs.
      destruct (IH (S i0) (ps ++ [p]) (4 + n0)%nat)
        as (bs & Hps & Hlen & Hall & Hinc).
      exists ((n0, (p, None)) :: bs).
      split; [|split; [|split]].
      * rewrite Hps. cbn [flat_map snd burst_particles fst].
        rewrite <- !app_assoc. reflexivity.
      * simpl. now rewrite Hlen.
      * intros [|i] m b Hnth.
        -- injection Hnth as <- <-. rewrite Nat.add_0_r. cbn [fst snd].
           split; [lia | split; assumption].
        -- cbn [nth_error] in Hnth.
           destruct (Hall i m b Hnth) as (Hm & Hpr & Hsc).
           replace (i0 + S i)%nat with (S i0 + i)%nat by lia.
           split; [lia | split; assumption].
      * intros [|i] [|j] mi bi mj bj Hij Hi Hj; try lia.
        -- injection Hi as <- <-. cbn [nth_error] in Hj.
           destruct (Hall j mj bj Hj) as (Hm & _).
           split; [lia | intro H; now elim H].
        -- cbn [nth_error] in Hi, Hj.
           apply (Hinc i j mi bi mj bj); [lia | assumption | assumption].
Qed.

Lemma explode_particles (fw : Firework) (n : nat) :
  f_particles (fst (explode fw n))
  = fst (explode_loop fw (fst (randint 30 60 n))
           (seq 0 (Z.to_nat (fst (randint 30 60 n))))
           (f_particles fw) (S n)).
Proof.
  unfold explode, bind at 1 2.
  rewrite (surjective_pairing (randint 30 60 n)), randint_next.
  cbn [fst snd].
  destruct (explode_loop fw _ _ (f_particles fw) (S n)). reflexivity.
Qed.

(** C4. [explode()] draws a particle count [N] in [[30, 60]] and appends to
    the particles exactly [N] bursts, in order.  The i-th burst is made of
    one primary particle at the explosion point with angle [2*pi*i/N],
    speed [uniform(2, 8)] in [[2, 8]] and integer size [randint(2, 4)] in
    [[2, 4]]; and of one scatter particle exactly when that burst's own
    draw of [random()] is below 0.3, with angle [uniform(0, 2*pi)] in
    [[0, 2*pi)], speed [uniform(1, 5)] in [[1, 5]] and half the primary's
    size by integer division.  Every draw is at a tape position of its own
    (the bursts use disjoint, increasing stretches of the tape), [exploded]
    is set, and the ascent state is left as it was. *)
Theorem explode_spec (fw : Firework) (n : nat) :
  let N := fst (randint 30 60 n) in
  let fw' := fst (explode fw n) in
  30 <= N <= 60 /\
  f_exploded fw' = true /\
  f_x fw' = f_x fw /\ f_y fw' = f_y fw /\ f_vy fw' = f_vy fw /\
  exists bursts : list (nat * (Particle * option Particle)),
    f_particles fw'
      = f_particles fw ++ flat_map (fun b => burst_particles (snd b)) bursts /\
    Z.of_nat (length bursts) = N /\
    (forall i m b, nth_error bursts i = Some (m, b) ->
       (n < m)%nat /\
       primary_ok fw N i m (fst b) /\
       scatter_ok fw m (fst b) (snd b)) /\
    (forall i j mi bi mj bj, (i < j)%nat ->
       nth_error bursts i = Some (mi, bi) ->
       nth_error bursts j = Some (mj, bj) ->
       (mi + 4 <= mj)%nat /\ (snd bi <> None -> (mi + 7 <= mj)%nat)).
Proof.
  intros N fw'.
  pose proof (randint_range 30 60 n ltac:(lia)) as HN. fold N in HN.
  destruct (explode_fields fw n) as (Hx & Hy & _ & _ & _ & Hvy & _ & He).
  fold fw' in Hx, Hy, Hvy, He.
  repeat (split; [assumption|]).
  destruct (explode_loop_spec fw N (Z.to_nat N) 0 (f_particles fw) (S n))
    as (bs & Hps & Hlen & Hall & Hinc).
  exists bs. split; [|split; [|split]].
  - rewrite <- Hps. apply explode_particles.
  - rewrite Hlen. lia.
  - intros i m b Hnth. destruct (Hall i m b Hnth) as (Hm & Hpr & Hsc).
    split; [lia | split; assumption].
  - exact Hinc.
Qed.

(** *** Alpha values *)

Lemma Qnat_nonneg (k : nat) : (0 <= Qnat k)%Q.
Proof.
  unfold Qnat. change 0%Q with (inject_Z 0). rewrite <- Zle_Qle. lia.
Qed.

Lemma Qnat_lt (i k : nat) : (i < k)%nat -> (Qnat i < Qnat k)%Q.
Proof. intro H. unfold Qnat. rewrite <- Zlt_Qlt. lia. Qed.

Lemma ratio_unit (i len : nat) :
  (i < len)%nat -> (0 <= Qnat i / Qnat len <= 1)%Q.
Proof.
  intro H. pose proof (Qnat_nonneg i) as Hi. pose proof (Qnat_lt i len H) as Hl.
  assert (Hpos : (0 < Qnat len)%Q) by lra.
  split.
  - apply Qle_shift_div_l; [exact Hpos | lra].
  - apply Qle_shift_div_r; [exact Hpos | lra].
Qed.

Lemma py_int_range (q : Q) (hi : Z) :
  (0 <= q)%Q -> (q <= QZ hi)%Q -> 0 <= py_int q <= hi.
Proof.
  intros H0 H1. rewrite py_int_nonneg by exact H0. split.
  - apply Qfloor_resp_le in H0. exact H0.
  - apply Qfloor_resp_le in H1. unfold QZ in H1.
    now rewrite Qfloor_Z in H1.
Qed.

Lemma particle_trail_alpha_range (i len : nat) (life : Z) :
  (i < len)%nat -> 0 < life <= 100 ->
  0 <= particle_trail_alpha i len life <= 255.
Proof.
  intros Hi Hl. unfold particle_trail_alpha.
  pose proof (ratio_unit i len Hi) as Hr.
  assert (Hf : (0 <= QZ life / 100 <= 1)%Q).
  { assert (H0 : (0 <= QZ life)%Q).
    { unfold QZ. change 0%Q with (inject_Z 0). rewrite <- Zle_Qle. lia. }
    assert (H1 : (QZ life <= 100)%Q).
    { unfold QZ. change 100%Q with (inject_Z 100). rewrite <- Zle_Qle. lia. }
    split.
    - apply Qle_shift_div_l; lra.
    - apply Qle_shift_div_r; lra. }
  revert Hr Hf. generalize (Qnat i / Qnat len)%Q (QZ life / 100)%Q.
  intros a b Ha Hb.
  apply py_int_range; change (QZ 255) with 255%Q; nra.
Qed.

Lemma particle_body_alpha_range (life : Z) :
  0 <= particle_body_alpha life <= 255.
Proof. unfold particle_body_alpha. lia. Qed.

Lemma firework_trail_alpha_range (i len : nat) :
  (i < len)%nat -> 0 <= firework_trail_alpha i len <= 255.
Proof.
  intro Hi. unfold firework_trail_alpha.
  pose proof (ratio_unit i len Hi) as Hr.
  revert Hr. generalize (Qnat i / Qnat len)%Q. intros a Ha.
  apply py_int_range; change (QZ 255) with 255%Q; lra.
Qed.

Lemma Particle_draw_alpha (p : Particle) (c : Circle) :
  0 < p_life p <= 100 -> In c (Particle_draw p) -> 0 <= alpha_of c <= 255.
Proof.
  intros Hl Hin. unfold Particle_draw in Hin.
  apply in_app_or in Hin. destruct Hin as [Hin | [<- | []]].
  - destruct (1 <? length (p_trail p))%nat; [|contradiction].
    apply in_map_iff in Hin. destruct Hin as ([i pos] & <- & Hin).
    apply enumerate_In in Hin. unfold alpha_of. cbn [c_alpha].
    now apply particle_trail_alpha_range.
  - unfold alpha_of. cbn [c_alpha]. apply particle_body_alpha_range.
Qed.

Lemma update_particles_filter (kept snapshot : list Particle) :
  update_particles kept snapshot
  = kept ++ filter Particle_is_alive (map Particle_update snapshot).
Proof.
  revert kept. induction snapshot as [|p rest IH]; intro kept.
  - simpl. now rewrite app_nil_r.
  - cbn [update_particles map filter].
    destruct (Particle_is_alive (Particle_update p)); cbn [negb].
    + rewrite IH, <- app_assoc. reflexivity.
    + apply IH.
Qed.

Lemma explode_loop_life (fw : Firework) (N : Z) (range : list nat) :
  forall (ps : list Particle) (n : nat),
    Forall (fun p => p_life p = 100) ps ->
    Forall (fun p => p_life p = 100) (fst (explode_loop fw N range ps n)).
Proof.
  induction range as [|i range IH]; intros ps n Hps; [exact Hps|].
  rewrite explode_loop_step.
  destruct (Qlt_bool (tape (3 + n)%nat) (3 # 10)); apply IH.
  - repeat (apply Forall_app; split; [|repeat constructor]). exact Hps.
  - apply Forall_app; split; [exact Hps | repeat constructor].
Qed.

(** Every particle a reachable Firework holds is within its lifetime. *)
Lemma reachable_particles_life (fw : Firework) :
  reachable fw -> Forall (fun p => 0 < p_life p <= 100) (f_particles fw).
Proof.
  induction 1 as [x ty c n | fw n Hr IH].
  - constructor.
  - destruct (f_exploded fw) eqn:E.
    + rewrite (Firework_update_exploded fw n E). cbn [fst f_particles].
      rewrite update_particles_filter. cbn [app].
      apply Forall_forall. intros p' Hin.
      apply filter_In in Hin. destruct Hin as [Hin Halive].
      apply in_map_iff in Hin. destruct Hin as (p & <- & Hin).
      rewrite Forall_forall in IH. specialize (IH p Hin).
      apply Particle_alive_life in Halive. simpl in *. lia.
    + rewrite (Firework_update_ascending fw n E).
      destruct (trigger (ascend fw)).
      * rewrite explode_particles. cbn [ascend f_particles].
        rewrite (ascending_no_particles fw Hr E).
        eapply Forall_impl; [|apply explode_loop_life; constructor].
        simpl. intros p Hp. lia.
      * exact IH.
Qed.

(** C6. Every alpha value computed for drawing lies within [[0, 255]]: for
    a Particle with [0 < life <= 100] and a trail of at most 10 points, the
    alpha of each trail point and the body alpha [clamp(life * 2, 0, 255)];
    for a Firework's ascent trail, the alpha of each trail point; and every
    circle that [draw()] draws for a reachable Firework, in either phase,
    receives an alpha within [[0, 255]]. *)
Theorem alpha_in_range :
  (forall (p : Particle) (i : nat),
     0 < p_life p <= 100 -> (length (p_trail p) <= 10)%nat ->
     (i < length (p_trail p))%nat ->
     0 <= particle_trail_alpha i (length (p_trail p)) (p_life p) <= 255 /\
     0 <= particle_body_alpha (p_life p) <= 255) /\
  (forall (fw : Firework) (i : nat),
     (i < length (f_trail fw))%nat ->
     0 <= firework_trail_alpha i (length (f_trail fw)) <= 255) /\
  (forall (fw : Firework) (c : Circle),
     reachable fw -> In c (Firework_draw fw) -> 0 <= alpha_of c <= 255).
Proof.
  split; [|split].
  - intros p i Hl _ Hi. split.
    + now apply particle_trail_alpha_range.
    + apply particle_body_alpha_range.
  - intros fw i Hi. now apply firework_trail_alpha_range.
  - intros fw c Hr Hin. unfold Firework_draw in Hin.
    destruct (f_exploded fw); cbn [negb] in Hin.
    + apply in_flat_map in Hin. destruct Hin as (p & Hp & Hin).
      pose proof (reachable_particles_life fw Hr) as Hlife.
      rewrite Forall_forall in Hlife.
      apply (Particle_draw_alpha p c (Hlife p Hp) Hin).
    + apply in_app_or in Hin. destruct Hin as [Hin | [<- | []]].
      * destruct (1 <? length (f_trail fw))%nat; [|contradiction].
        apply in_map_iff in Hin. destruct Hin as ([i pos] & <- & Hin).
        apply enumerate_In in Hin. unfold alpha_of. cbn [c_alpha].
        now apply firework_trail_alpha_range.
      * unfold alpha_of. cbn [c_alpha]. lia.
Qed.

(** *** Spawn requests *)

(** C8 (as the code has it). A spawn request is never rejected, whatever
    its coordinates, inside the viewport or outside: exactly one Firework
    is appended, and its [x] and target altitude are the request's
    coordinates as they are, without any clamping; nothing else of the
    state changes. *)
Theorem spawn_request_kept_as_is (g : Game) (mx my : Z) (n : nat) :
  let g' := fst (handle_event g (MOUSEBUTTONDOWN mx my) n) in
  exists fw : Firework,
    fireworks g' = fireworks g ++ [fw] /\
    f_x fw = QZ mx /\ f_target_y fw = QZ my /\
    f_y fw = QZ HEIGHT /\ f_exploded fw = false /\
    running g' = running g /\ auto_firework g' = auto_firework g.
Proof.
  cbv zeta. rewrite handle_mouse. cbn [fireworks running auto_firework].
  eexists. split; [reflexivity|]. repeat split.
Qed.

(** *** Automatic fireworks *)

Lemma auto_spawn_unfold (fws : list Firework) (c : Z) (n : nat) :
  auto_spawn fws c n =
    if threshold_at n <? c + 1 then
      (fws ++ [fst (Firework_init
                      (QZ (fst (randint 50 (WIDTH - 50) (1 + n)%nat)))
                      (QZ (fst (randint 50 (HEIGHT / 2) (2 + n)%nat)))
                      (fst (choice BLACK COLORS (3 + n)%nat)) (4 + n)%nat)],
       0, (5 + n)%nat)
    else (fws, c + 1, S n).
Proof.
  unfold auto_spawn, threshold_at. unfold bind at 1.
  rewrite (surjective_pairing (randint 30 60 n)), randint_next.
  cbn [fst snd]. destruct (fst (randint 30 60 n) <? c + 1); reflexivity.
Qed.

(** C9 (as the code has it). At every frame the counter is incremented and
    compared against a threshold drawn in [[30, 60]] for that frame alone
    (the draw at the frame's own tape position; the next frame draws
    again).  When the counter does not exceed it, nothing is spawned and
    the counter keeps its incremented value.  When it exceeds it, one
    firework is spawned, with [x] an integer in [[50, WIDTH - 50]], target
    altitude an integer in [[50, HEIGHT // 2]] and a colour of [COLORS],
    and the counter is reset to zero. *)
Theorem auto_spawn_spec (fws : list Firework) (c : Z) (n : nat) :
  let T := threshold_at n in
  let r := auto_spawn fws c n in
  30 <= T <= 60 /\
  (c + 1 <= T -> r = (fws, c + 1, S n)) /\
  (T < c + 1 ->
   exists (fw : Firework) (x target_y : Z),
     r = (fws ++ [fw], 0, (5 + n)%nat) /\
     f_x fw = QZ x /\ 50 <= x <= WIDTH - 50 /\
     f_target_y fw = QZ target_y /\ 50 <= target_y <= HEIGHT / 2 /\
     In (f_color fw) COLORS /\
     f_y fw = QZ HEIGHT /\ f_exploded fw = false).
Proof.
  intros T r. unfold r. rewrite auto_spawn_unfold. fold T.
  split; [apply randint_range; lia|]. split.
  - intro H. destruct (Z.ltb_spec T (c + 1)); [lia|]. reflexivity.
  - intro H. destruct (Z.ltb_spec T (c + 1)); [|lia].
    eexists; eexists; eexists. split; [reflexivity|].
    cbn [Firework_init uniform random bind ret fst f_x f_target_y f_color
         f_y f_exploded].
    split; [reflexivity|].
    split; [apply randint_range; unfold WIDTH; lia|].
    split; [reflexivity|].
    split; [apply randint_range; vm_compute; discriminate|].
    split; [apply choice_In; discriminate|].
    split; reflexivity.
Qed.

(** *** The pass over the fireworks *)

Lemma update_and_draw_cons (i : nat) (kept : list Firework) (fw : Firework)
    (rest : list Firework) (n : nat) :
  let fw1 := fst (Firework_update fw n) in
  let r := update_and_draw (S i)
             (if Firework_is_alive fw1 then kept ++ [fw1] else kept)
             rest (snd (Firework_update fw n)) in
  update_and_draw i kept (fw :: rest) n
  = (fst (fst r), firework_steps i fw1 ++ snd (fst r), snd r).
Proof.
  cbv zeta. cbn [update_and_draw]. unfold bind, ret, firework_steps.
  destruct (Firework_update fw n) as [fw1 n1]. cbn [fst snd].
  destruct (Firework_is_alive fw1); cbn [negb].
  - destruct (update_and_draw (S i) (kept ++ [fw1]) rest n1) as [r n2].
    reflexivity.
  - destruct (update_and_draw (S i) kept rest n1) as [r n2]. reflexivity.
Qed.

Lemma update_and_draw_spec (snapshot : list Firework) :
  forall (i : nat) (kept : list Firework) (n : nat),
  exists updated : list Firework,
    Forall2 (fun fw fw' => exists m, fw' = fst (Firework_update fw m))
            snapshot updated /\
    fst (fst (update_and_draw i kept snapshot n))
      = kept ++ filter Firework_is_alive updated /\
    snd (fst (update_and_draw i kept snapshot n))
      = flat_map (fun jf => firework_steps (fst jf) (snd jf))
                 (combine (seq i (length updated)) updated).
Proof.
  induction snapshot as [|fw rest IH]; intros i kept n.
  - exists []. simpl. rewrite app_nil_r. repeat split. constructor.
  - rewrite update_and_draw_cons. cbn [fst snd].
    set (fw1 := fst (Firework_update fw n)).
    destruct (IH (S i) (if Firework_is_alive fw1 then kept ++ [fw1] else kept)
                 (snd (Firework_update fw n))) as (upd & HF & Hk & Hs).
    exists (fw1 :: upd). split; [|split].
    + constructor; [exists n; reflexivity | exact HF].
    + rewrite Hk. cbn [filter].
      destruct (Firework_is_alive fw1); [|reflexivity].
      rewrite <- app_assoc. reflexivity.
    + rewrite Hs. reflexivity.
Qed.

Lemma frame_unfold (g : Game) (events : list Event) (n : nat) :
  exists (g1 : Game) (fws : list Firework) (c : Z) (n' : nat),
    fst (frame g events n)
    = (mkGame (fst (fst (update_and_draw 0 [] fws n'))) (running g1) c
              (fst (clear_screen (screen g1) (trail_surface g1)))
              (snd (clear_screen (screen g1) (trail_surface g1))),
       snd (fst (update_and_draw 0 [] fws n'))).
Proof.
  unfold frame, bind, ret.
  destruct (handle_events g events n) as [g1 n1].
  destruct (auto_spawn (fireworks g1) (auto_firework g1) n1)
    as [[fws c] n2]. cbn [fst snd].
  exists g1, fws, c, n2.
  destruct (update_and_draw 0 [] fws n2) as [r n3]. reflexivity.
Qed.

Lemma update_each_length (snapshot : list Firework) :
  forall n, length (update_each snapshot n) = length snapshot.
Proof.
  induction snapshot as [|fw rest IH]; intro n; [reflexivity|].
  cbn [update_each length]. now rewrite IH.
Qed.

Lemma update_each_Forall2 (snapshot : list Firework) :
  forall n,
    Forall2 (fun fw fw' => exists m, fw' = fst (Firework_update fw m))
            snapshot (update_each snapshot n).
Proof.
  induction snapshot as [|fw rest IH]; intro n; [constructor|].
  cbn [update_each]. constructor; [now exists n | apply IH].
Qed.

Lemma update_and_draw_exact (snapshot : list Firework) :
  forall (i : nat) (kept : list Firework) (n : nat),
    fst (fst (update_and_draw i kept snapshot n))
      = kept ++ filter Firework_is_alive (update_each snapshot n) /\
    snd (fst (update_and_draw i kept snapshot n))
      = flat_map (fun jf => firework_steps (fst jf) (snd jf))
                 (combine (seq i (length snapshot))
                          (update_each snapshot n)).
Proof.
  induction snapshot as [|fw rest IH]; intros i kept n.
  - simpl. now rewrite app_nil_r.
  - rewrite update_and_draw_cons. cbn [fst snd update_each].
    set (fw1 := fst (Firework_update fw n)).
    destruct (IH (S i) (if Firework_is_alive fw1 then kept ++ [fw1] else kept)
                 (snd (Firework_update fw n))) as (Hk & Hs).
    split.
    + rewrite Hk. cbn [filter].
      destruct (Firework_is_alive fw1); [|reflexivity].
      rewrite <- app_assoc. reflexivity.
    + rewrite Hs. reflexivity.
Qed.

Lemma frame_exact (g : Game) (events : list Event) (n : nat) :
  let g1 := fst (handle_events g events n) in
  let spawned := auto_spawn (fireworks g1) (auto_firework g1)
                            (snd (handle_events g events n)) in
  fst (frame g events n)
  = (mkGame (fst (fst (update_and_draw 0 [] (fst (fst spawned))
                                       (snd spawned))))
            (running g1) (snd (fst spawned))
            (fst (clear_screen (screen g1) (trail_surface g1)))
            (snd (clear_screen (screen g1) (trail_surface g1))),
     snd (fst (update_and_draw 0 [] (fst (fst spawned)) (snd spawned)))).
Proof.
  cbv zeta. unfold frame, bind, ret.
  destruct (handle_events g events n) as [g1 n1]. cbn [fst snd].
  destruct (auto_spawn (fireworks g1) (auto_firework g1) n1)
    as [[fws c] n2]. cbn [fst snd].
  destruct (update_and_draw 0 [] fws n2) as [r n3]. reflexivity.
Qed.

(** C2 (as the code has it). Within every frame the fireworks of the
    collection, as the events and the automatic firework of that frame
    have left it, are gone through one after another, in collection order,
    every one of them; for each its [update()] comes first, then its
    [draw()], of the state that update left, then its removal if that state
    is dead, and only then is the next firework touched.  So a Firework
    that dies during a frame is still drawn once, in its final state,
    before it is removed; the fireworks left are those alive after their
    update. *)
Theorem frame_pass_order (g : Game) (events : list Event) (n : nat) :
  let g1 := fst (handle_events g events n) in
  let spawned := auto_spawn (fireworks g1) (auto_firework g1)
                            (snd (handle_events g events n)) in
  let fws := fst (fst spawned) in
  let updated := update_each fws (snd spawned) in
  length updated = length fws /\
  Forall2 (fun fw fw' => exists m, fw' = fst (Firework_update fw m))
          fws updated /\
  snd (fst (frame g events n))
    = flat_map (fun jf => firework_steps (fst jf) (snd jf))
               (combine (seq 0 (length updated)) updated) /\
  fireworks (fst (fst (frame g events n)))
    = filter Firework_is_alive updated.
Proof.
  cbv zeta. rewrite frame_exact. cbv zeta. cbn [fst snd fireworks].
  match goal with |- context [update_each ?l ?c] =>
    destruct (update_and_draw_exact l 0 [] c) as (Hk & Hs);
    pose proof (update_each_length l c) as Hlen;
    pose proof (update_each_Forall2 l c) as HF
  end.
  split; [exact Hlen|]. split; [exact HF|]. split.
  - rewrite Hs, Hlen. reflexivity.
  - exact Hk.
Qed.

(** *** A burst dies at once *)

Lemma update_particles_life (L : Z) (ps : list Particle) :
  Forall (fun p => p_life p = L) ps ->
  Forall (fun p => p_life p = L - 1) (update_particles [] ps).
Proof.
  intro H. rewrite update_particles_filter. cbn [app].
  apply Forall_forall. intros p' Hin.
  apply filter_In in Hin. destruct Hin as [Hin _].
  apply in_map_iff in Hin. destruct Hin as (p & <- & Hin).
  rewrite Forall_forall in H. rewrite <- (H p Hin). reflexivity.
Qed.

Lemma update_particles_last (ps : list Particle) :
  Forall (fun p => p_life p = 1) ps -> update_particles [] ps = [].
Proof.
  intro H. rewrite update_particles_filter. cbn [app].
  induction H as [|p ps Hp _ IH]; [reflexivity|].
  cbn [map filter]. rewrite Particle_dead; [exact IH|].
  cbn [Particle_update p_life]. lia.
Qed.

Lemma exploded_updates_life (k : nat) :
  forall (fw : Firework) (n : nat) (L : Z),
    f_exploded fw = true ->
    Forall (fun p => p_life p = L) (f_particles fw) ->
    Forall (fun p => p_life p = L - Z.of_nat k)
           (f_particles (fst (updates k fw n))).
Proof.
  induction k as [|k IH]; intros fw n L He H.
  - simpl. eapply Forall_impl; [|exact H]. simpl. intros p Hp. lia.
  - cbn [updates]. unfold bind.
    rewrite (Firework_update_exploded fw n He).
    replace (L - Z.of_nat (S k)) with (L - 1 - Z.of_nat k) by lia.
    apply IH; [reflexivity|]. cbn [f_particles].
    now apply update_particles_life.
Qed.

(** A Firework aimed so low that it explodes on its first update is dead
    at its 101st update, all its particles having run out of life. *)
Lemma low_firework_dies (x target_y : Q) (color : Color) (n m : nat) :
  (QZ HEIGHT - (147 # 10) <= target_y)%Q ->
  let fw100 := fst (updates 100 (fst (Firework_init x target_y color n)) m) in
  reachable fw100 /\
  forall n', Firework_is_alive (fst (Firework_update fw100 n')) = false.
Proof.
  intros Hty fw100. split.
  - apply reachable_updates, reach_init.
  - intro n'. unfold fw100.
    change 100%nat with (1 + 99)%nat. rewrite updates_add.
    set (fw0 := fst (Firework_init x target_y color n)).
    assert (H1 : updates 1 fw0 m = Firework_update fw0 m).
    { simpl. unfold bind, ret. now destruct (Firework_update fw0 m). }
    rewrite H1.
    assert (He0 : f_exploded fw0 = false) by reflexivity.
    assert (Hp0 : f_particles fw0 = []) by reflexivity.
    pose proof (low_target_explodes x target_y color n m Hty) as Hexp.
    fold fw0 in Hexp.
    assert (Hlife : Forall (fun p => p_life p = 100)
                      (f_particles (fst (Firework_update fw0 m)))).
    { rewrite (Firework_update_ascending fw0 m He0) in Hexp |- *.
      destruct (trigger (ascend fw0)).
      - rewrite explode_particles. apply explode_loop_life.
        cbn [ascend f_particles]. rewrite Hp0. constructor.
      - cbn [fst ascend f_exploded] in Hexp. congruence. }
    pose proof (exploded_updates_life 99 _ (snd (Firework_update fw0 m))
                  100 Hexp Hlife) as H99.
    pose proof (exploded_stays 99 _ (snd (Firework_update fw0 m)) Hexp)
      as He99.
    set (fw99 := fst (updates 99 _ _)) in *.
    rewrite (Firework_update_exploded fw99 n' He99).
    unfold Firework_is_alive. cbn [fst f_exploded negb f_particles].
    rewrite update_particles_last; [reflexivity|].
    eapply Forall_impl; [|exact H99]. simpl. intros p Hp. lia.
Qed.

(** *** Clearing the screen *)

Lemma blend_black (a : Z) : blend a BLACK BLACK = BLACK.
Proof.
  unfold blend, BLACK, blend_channel. rewrite Z.sub_diag, Z.mul_0_l.
  reflexivity.
Qed.

Lemma clear_screen_black (scr trail : Surface) (x y : Z) :
  pixel (fst (clear_screen scr trail)) x y = BLACK.
Proof.
  unfold clear_screen, blit, fill. cbn [s_alpha fst pixel].
  destruct (s_alpha trail) as [a|]; cbn [pixel]; [apply blend_black|].
  reflexivity.
Qed.

(** C1 (what the code does). The clearing of every frame starts with an
    opaque [screen.fill(BLACK)]: after it, and after the translucent blit
    that follows, every pixel of the screen is black whatever the screen
    held, so nothing drawn in a previous frame persists.  On a screen lit
    red, the clearing of the code leaves the pixel (400, 300) black, where
    the translucent fill alone would leave it at (235, 0, 0). *)
Theorem clear_screen_is_opaque :
  (forall (scr trail : Surface) (x y : Z),
     pixel (fst (clear_screen scr trail)) x y = BLACK) /\
  (forall (g : Game) (events : list Event) (n : nat) (x y : Z),
     pixel (screen (fst (fst (frame g events n)))) x y = BLACK) /\
  pixel (fst (clear_screen (plain_surface (255, 0, 0)) new_trail_surface))
        400 300 = BLACK /\
  pixel (fst (translucent_clear (plain_surface (255, 0, 0))
                                new_trail_surface))
        400 300 = (235, 0, 0).
Proof.
  split; [exact clear_screen_black|]. split.
  - intros g events n x y.
    destruct (frame_unfold g events n) as (g1 & fws & c & n' & ->).
    cbn [fst screen]. apply clear_screen_black.
  - split; reflexivity.
Qed.

(** ** Further properties of the code *)

(** *** Trails and particle collections *)

Lemma trail_push_Forall {A} (P : A -> Prop) (cap : nat) (tr : list A)
    (p : A) :
  Forall P tr -> P p -> Forall P (trail_push cap tr p).
Proof.
  intros Htr Hp. unfold trail_push.
  assert (H : Forall P (tr ++ [p])).
  { apply Forall_app. split; [exact Htr | repeat constructor; exact Hp]. }
  destruct (cap <? length (tr ++ [p]))%nat; [|exact H].
  destruct (tr ++ [p]); [exact H | now inversion H].
Qed.

Lemma explode_loop_Forall (P : Particle -> Prop) (fw : Firework) (N : Z) :
  (forall x y color speed angle size n,
      P (fst (Particle_init x y color speed angle size n))) ->
  forall (range : list nat) (ps : list Particle) (n : nat),
    Forall P ps -> Forall P (fst (explode_loop fw N range ps n)).
Proof.
  intros Hnew range. induction range as [|i range IH]; intros ps n Hps;
    [exact Hps|].
  rewrite explode_loop_step.
  destruct (Qlt_bool (tape (3 + n)%nat) (3 # 10)); apply IH.
  - repeat (apply Forall_app; split; [|repeat constructor; apply Hnew]).
    exact Hps.
  - apply Forall_app; split; [exact Hps | repeat constructor; apply Hnew].
Qed.

(** X1. Whatever the number of updates, a reachable Firework's ascent
    trail holds at most 20 points, all of them on the vertical of the
    firework ([x] never changes), and the trail of each of its particles
    holds at most 10 points. *)
Theorem reachable_trails_capped (fw : Firework) :
  reachable fw ->
  (length (f_trail fw) <= 20)%nat /\
  Forall (fun pt => fst pt = f_x fw) (f_trail fw) /\
  Forall (fun p => (length (p_trail p) <= 10)%nat) (f_particles fw).
Proof.
  induction 1 as [x ty c n | fw n Hr (Hlen & Hx & Hp)].
  - simpl. repeat split; [lia | constructor | constructor].
  - destruct (f_exploded fw) eqn:E.
    + rewrite (Firework_update_exploded fw n E).
      cbn [fst f_trail f_x f_particles].
      split; [exact Hlen|]. split; [exact Hx|].
      rewrite update_particles_filter. cbn [app].
      apply Forall_forall. intros p' Hin.
      apply filter_In in Hin. destruct Hin as [Hin _].
      apply in_map_iff in Hin. destruct Hin as (p & <- & Hin).
      rewrite Forall_forall in Hp.
      cbn [Particle_update p_trail]. apply trail_push_length, Hp, Hin.
    + rewrite (Firework_update_ascending fw n E).
      assert (Hlen' : (length (f_trail (ascend fw)) <= 20)%nat)
        by (apply trail_push_length; exact Hlen).
      assert (Hx' : Forall (fun pt => fst pt = f_x (ascend fw))
                           (f_trail (ascend fw)))
        by (apply trail_push_Forall; [exact Hx | reflexivity]).
      destruct (trigger (ascend fw)).
      * destruct (explode_fields (ascend fw) n)
          as (Ex & _ & _ & _ & _ & _ & Etr & _).
        rewrite Etr, Ex. split; [exact Hlen'|]. split; [exact Hx'|].
        rewrite explode_particles. apply explode_loop_Forall.
        -- intros. simpl. lia.
        -- exact Hp.
      * cbn [fst]. split; [exact Hlen'|]. split; [exact Hx' | exact Hp].
Qed.

(** X2. In the exploded phase [update()] updates every particle once and
    keeps, in order, exactly those that are then alive: the collection
    never grows, every particle left is alive, and no random draw is
    consumed. *)
Theorem exploded_update_particles (fw : Firework) (n : nat) :
  f_exploded fw = true ->
  let fw' := fst (Firework_update fw n) in
  f_particles fw'
    = filter Particle_is_alive (map Particle_update (f_particles fw)) /\
  (length (f_particles fw') <= length (f_particles fw))%nat /\
  Forall (fun p => Particle_is_alive p = true) (f_particles fw') /\
  snd (Firework_update fw n) = n.
Proof.
  intro E. rewrite (Firework_update_exploded fw n E).
  cbn [fst snd f_particles]. rewrite update_particles_filter. cbn [app].
  split; [reflexivity|]. split; [|split; [|reflexivity]].
  - etransitivity; [apply filter_length_le|]. now rewrite length_map.
  - apply Forall_forall. intros p Hin. apply filter_In in Hin. apply Hin.
Qed.

(** *** The ascent of a constructed Firework *)

Lemma ascent_facts (x ty : Q) (color : Color) (n m k : nat) :
  let fw0 := fst (Firework_init x ty color n) in
  let fw := fst (updates k fw0 m) in
  f_target_y fw = ty /\
  (- (20) <= f_vy fw)%Q /\
  (f_exploded fw = false ->
   (f_vy fw < 0)%Q /\ (f_y fw <= QZ HEIGHT)%Q /\
   (f_vy fw == f_vy fw0 + Qnat k * (3 # 10))%Q /\
   ((1 <= k)%nat -> (ty < f_y fw)%Q)) /\
  ((ty <= QZ HEIGHT)%Q -> (ty - (197 # 10) <= f_y fw)%Q).
Proof.
  cbv zeta. induction k as [|k IH].
  - pose proof (uniform_range 15 20 n ltac:(lra)) as Hu.
    cbn [updates ret fst]. rewrite Firework_init_fields.
    cbn [f_target_y f_vy f_exploded f_y].
    change (Qnat 0) with 0%Q.
    repeat split; try lra. lia.
  - rewrite updates_snoc.
    set (s := fst (updates k _ m)) in *.
    set (c := snd (updates k _ m)).
    destruct IH as (Ht & Hlo & Hasc & Halt).
    destruct (f_exploded s) eqn:E.
    + destruct (Firework_update_frozen s c E)
        as (_ & Fy & Fvy & _ & Ft & _ & _ & Fe & _).
      rewrite Ft, Fvy, Fy, Fe.
      repeat split; try assumption; discriminate.
    + destruct (Hasc eq_refl) as (Hneg & Hy & Hvy & Hty).
      destruct (Firework_update_ascending_fields s c E)
        as (_ & Uvy & Uy & Ut & _ & _ & _ & Ue).
      assert (Hy0 : (ty <= QZ HEIGHT)%Q -> (ty <= f_y s)%Q).
      { intro H. destruct k as [|k].
        - unfold s. cbn [updates ret fst]. rewrite Firework_init_fields.
          exact H.
        - apply Qlt_le_weak, Hty. lia. }
      rewrite Ut, Ue. unfold trigger. rewrite Uy, Uvy, Ut.
      split; [exact Ht|]. split; [lra|]. split.
      * intro Hno. apply orb_false_iff in Hno. destruct Hno as [H1 H2].
        apply Qle_bool_false_iff in H1. apply Qle_bool_false_iff in H2.
        rewrite Ht in H2.
        split; [exact H1|]. split; [lra|]. split.
        -- rewrite Hvy, (Qnat_S k). ring.
        -- intros _. exact H2.
      * intro H. specialize (Hy0 H). lra.
Qed.

(** X4. While a Firework made by the constructor is still ascending
    after [k] updates, its [vy] is not below its initial [vy], never below
    -20 and still negative, [y] has not gone back over the launch height,
    and from the first update on [y] is strictly below the target altitude
    line ([y > target_y]). *)
Theorem ascending_state_bounds (x ty : Q) (color : Color) (n m k : nat) :
  let fw0 := fst (Firework_init x ty color n) in
  let fw := fst (updates k fw0 m) in
  f_exploded fw = false ->
  (- (20) <= f_vy fw < 0)%Q /\
  (f_vy fw0 <= f_vy fw)%Q /\
  (f_y fw <= QZ HEIGHT)%Q /\
  ((1 <= k)%nat -> (ty < f_y fw)%Q).
Proof.
  intros fw0 fw He.
  destruct (ascent_facts x ty color n m k) as (_ & Hlo & Hasc & _).
  destruct (Hasc He) as (Hneg & Hy & Hvy & Hty).
  pose proof (Qnat_nonneg k) as Hk.
  fold fw0 in Hvy. fold fw in Hvy, Hneg, Hy, Hlo, Hty.
  repeat split; try assumption.
  rewrite Hvy. lra.
Qed.

(** X5. A Firework made by the constructor with a target inside the
    viewport ([target_y <= HEIGHT]) never overshoots its target by more
    than 19.7: at every moment of its life, exploded or not,
    [y >= target_y - 19.7]. *)
Theorem explosion_altitude (x ty : Q) (color : Color) (n m k : nat) :
  (ty <= QZ HEIGHT)%Q ->
  (ty - (197 # 10) <= f_y (fst (updates k (fst (Firework_init x ty color n))
                                  m)))%Q.
Proof.
  intro H. now apply (ascent_facts x ty color n m k).
Qed.

(** *** The lifetime of a Firework *)

Lemma fresh_burst_life (fw : Firework) (n : nat) :
  reachable fw -> f_exploded fw = false ->
  f_exploded (fst (Firework_update fw n)) = true ->
  Forall (fun p => p_life p = 100)
         (f_particles (fst (Firework_update fw n))).
Proof.
  intros Hr He Hex.
  rewrite (Firework_update_ascending fw n He) in Hex |- *.
  destruct (trigger (ascend fw)).
  - rewrite explode_particles. apply explode_loop_life.
    cbn [ascend f_particles]. rewrite (ascending_no_particles fw Hr He).
    constructor.
  - cbn [fst ascend f_exploded] in Hex. congruence.
Qed.

Lemma burst_gone (fw : Firework) (n : nat) :
  reachable fw -> f_exploded fw = true ->
  Forall (fun p => p_life p = 100) (f_particles fw) ->
  f_particles (fst (updates 100 fw n)) = [].
Proof.
  intros Hr He Hl.
  pose proof (exploded_updates_life 100 fw n 100 He Hl) as H0.
  pose proof (reachable_particles_life _ (reachable_updates 100 fw n Hr))
    as Hpos.
  destruct (f_particles (fst (updates 100 fw n))) as [|p ps];
    [reflexivity|].
  inversion H0; inversion Hpos; subst. simpl in *. lia.
Qed.

Lemma empty_stays (d : nat) :
  forall (fw : Firework) (n : nat),
    f_exploded fw = true -> f_particles fw = [] ->
    f_exploded (fst (updates d fw n)) = true /\
    f_particles (fst (updates d fw n)) = [].
Proof.
  induction d as [|d IH]; intros fw n He Hp; [split; assumption|].
  cbn [updates]. unfold bind.
  rewrite (Firework_update_exploded fw n He). apply IH; [reflexivity|].
  cbn [f_particles]. rewrite Hp. reflexivity.
Qed.

(** X3. No Firework lives for ever: a Firework made by the constructor
    has exploded after 67 updates at the latest, and [is_alive()] is false
    after 167 updates and after every later one (its particles, all made
    with life 100, are gone a hundred updates after the explosion). *)
Theorem firework_lifetime (x ty : Q) (color : Color) (n m j : nat) :
  let fw := fst (updates j (fst (Firework_init x ty color n)) m) in
  ((67 <= j)%nat -> f_exploded fw = true) /\
  ((167 <= j)%nat -> Firework_is_alive fw = false).
Proof.
  set (fw0 := fst (Firework_init x ty color n)). cbv zeta.
  assert (He0 : f_exploded fw0 = false) by reflexivity.
  assert (H67 : f_exploded (fst (updates 67 fw0 m)) = true).
  { apply explodes_within; [exact He0|].
    pose proof (uniform_range 15 20 n ltac:(lra)) as Hu.
    unfold fw0. rewrite Firework_init_fields. cbn [f_vy].
    change (Qnat 67) with 67%Q. lra. }
  split.
  - intro Hj. now apply (exploded_mono 67 j).
  - intro Hj.
    destruct (first_explosion 67 fw0 m He0 H67) as (k & Hk & Hf & Ht).
    assert (Hr : reachable (fst (updates k fw0 m)))
      by apply reachable_updates, reach_init.
    rewrite updates_snoc in Ht.
    pose proof (fresh_burst_life _ _ Hr Hf Ht) as Hl.
    rewrite <- updates_snoc in Ht, Hl.
    assert (Hr' : reachable (fst (updates (S k) fw0 m)))
      by apply reachable_updates, reach_init.
    pose proof (burst_gone _ (snd (updates (S k) fw0 m)) Hr' Ht Hl) as Hg.
    pose proof (exploded_stays 100 _ (snd (updates (S k) fw0 m)) Ht) as He.
    rewrite <- updates_add in Hg, He.
    replace j with ((S k + 100) + (j - (S k + 100)))%nat by lia.
    rewrite updates_add.
    destruct (empty_stays (j - (S k + 100)) _
                (snd (updates (S k + 100) fw0 m)) He Hg) as [He' Hp'].
    unfold Firework_is_alive. rewrite He', Hp'. reflexivity.
Qed.

(** *** The size of a burst *)

Lemma explode_loop_length (fw : Firework) (N : Z) (range : list nat) :
  forall (ps : list Particle) (n : nat),
    (length ps + length range
       <= length (fst (explode_loop fw N range ps n))
       <= length ps + 2 * length range)%nat.
Proof.
  induction range as [|i range IH]; intros ps n; [simpl; lia|].
  rewrite explode_loop_step.
  destruct (Qlt_bool (tape (3 + n)%nat) (3 # 10)).
  - match goal with |- context [explode_loop fw N range ?l ?c] =>
      specialize (IH l c) end.
    rewrite !length_app in IH. simpl in *. lia.
  - match goal with |- context [explode_loop fw N range ?l ?c] =>
      specialize (IH l c) end.
    rewrite !length_app in IH. simpl in *. lia.
Qed.

Lemma fresh_burst_count (fw : Firework) (n : nat) :
  reachable fw -> f_exploded fw = false ->
  f_exploded (fst (Firework_update fw n)) = true ->
  (30 <= length (f_particles (fst (Firework_update fw n))) <= 120)%nat.
Proof.
  intros Hr He Hex.
  rewrite (Firework_update_ascending fw n He) in Hex |- *.
  destruct (trigger (ascend fw)).
  - rewrite explode_particles.
    pose proof (randint_range 30 60 n ltac:(lia)) as HN.
    set (N := fst (randint 30 60 n)) in *.
    match goal with |- context [explode_loop ?f N ?r ?l ?c] =>
      pose proof (explode_loop_length f N r l c) as H end.
    cbn [ascend f_particles] in H |- *.
    rewrite (ascending_no_particles fw Hr He) in H |- *.
    rewrite length_seq in H. cbn [length] in H. lia.
  - cbn [fst ascend f_exploded] in Hex. congruence.
Qed.

(** X6. A burst is made of 30 to 120 particles: the update at which a
    reachable Firework explodes leaves it with at least 30 and at most 120
    particles, and no reachable Firework ever holds more than 120. *)
Theorem burst_size (fw : Firework) :
  reachable fw ->
  (length (f_particles fw) <= 120)%nat /\
  (forall n, f_exploded fw = false ->
             f_exploded (fst (Firework_update fw n)) = true ->
             (30 <= length (f_particles (fst (Firework_update fw n)))
                 <= 120)%nat).
Proof.
  intro Hr. split; [|intros n He Hex; now apply fresh_burst_count].
  induction Hr as [x ty c n | fw n Hr IH]; [simpl; lia|].
  destruct (f_exploded fw) eqn:E.
  - rewrite (Firework_update_exploded fw n E). cbn [fst f_particles].
    rewrite update_particles_filter. cbn [app].
    etransitivity; [apply filter_length_le|]. now rewrite length_map.
  - destruct (f_exploded (fst (Firework_update fw n))) eqn:E'.
    + now apply fresh_burst_count.
    + rewrite (ascending_no_particles _ (reach_update fw n Hr) E').
      simpl. lia.
Qed.

(** *** Radii *)

Lemma explode_loop_size (fw : Firework) (N : Z) (range : list nat) :
  forall (ps : list Particle) (n : nat),
    Forall (fun p => 1 <= p_size p <= 4) ps ->
    Forall (fun p => 1 <= p_size p <= 4)
           (fst (explode_loop fw N range ps n)).
Proof.
  induction range as [|i range IH]; intros ps n Hps; [exact Hps|].
  rewrite explode_loop_step.
  pose proof (randint_range 2 4 (1 + n)%nat ltac:(lia)) as Hs.
  assert (Hhalf : 1 <= fst (randint 2 4 (1 + n)%nat) / 2 <= 4).
  { split; [apply Z.div_le_lower_bound; lia|].
    apply Z.lt_succ_r, Z.div_lt_upper_bound; lia. }
  destruct (Qlt_bool (tape (3 + n)%nat) (3 # 10)); apply IH.
  - apply Forall_app. split; [apply Forall_app; split; [exact Hps|]|].
    + repeat constructor; cbn [Particle_init uniform random bind ret fst
        p_size]; lia.
    + repeat constructor; cbn [Particle_init uniform random bind ret fst
        p_size]; lia.
  - apply Forall_app. split; [exact Hps|].
    repeat constructor; cbn [Particle_init uniform random bind ret fst
      p_size]; lia.
Qed.

Lemma reachable_particles_size (fw : Firework) :
  reachable fw -> Forall (fun p => 1 <= p_size p <= 4) (f_particles fw).
Proof.
  induction 1 as [x ty c n | fw n Hr IH]; [constructor|].
  destruct (f_exploded fw) eqn:E.
  - rewrite (Firework_update_exploded fw n E). cbn [fst f_particles].
    rewrite update_particles_filter. cbn [app].
    apply Forall_forall. intros p' Hin.
    apply filter_In in Hin. destruct Hin as [Hin _].
    apply in_map_iff in Hin. destruct Hin as (p & <- & Hin).
    rewrite Forall_forall in IH. exact (IH p Hin).
  - rewrite (Firework_update_ascending fw n E).
    destruct (trigger (ascend fw)); [|exact IH].
    rewrite explode_particles. apply explode_loop_size. exact IH.
Qed.

Lemma Firework_draw_radius (fw : Firework) (c : Circle) :
  reachable fw -> In c (Firework_draw fw) -> 1 <= c_radius c <= 4.
Proof.
  intros Hr Hin. unfold Firework_draw in Hin.
  destruct (f_exploded fw); cbn [negb] in Hin.
  - apply in_flat_map in Hin. destruct Hin as (p & Hp & Hin).
    pose proof (reachable_particles_size fw Hr) as Hs.
    rewrite Forall_forall in Hs. specialize (Hs p Hp).
    unfold Particle_draw in Hin.
    apply in_app_or in Hin. destruct Hin as [Hin | [<- | []]].
    + destruct (1 <? length (p_trail p))%nat; [|contradiction].
      apply in_map_iff in Hin. destruct Hin as ([i pos] & <- & _).
      cbn [c_radius].
      assert (p_size p / 2 <= 2)
        by (apply Z.lt_succ_r, Z.div_lt_upper_bound; lia).
      lia.
    + cbn [c_radius]. exact Hs.
  - apply in_app_or in Hin. destruct Hin as [Hin | [<- | []]].
    + destruct (1 <? length (f_trail fw))%nat; [|contradiction].
      apply in_map_iff in Hin. destruct Hin as ([i pos] & <- & _).
      cbn [c_radius]. lia.
    + cbn [c_radius]. lia.
Qed.

Lemma Particle_draw_radii (p : Particle) :
  exists (trail_circles : list Circle) (body : Circle),
    Particle_draw p = trail_circles ++ [body] /\
    length trail_circles
      = (if (1 <? length (p_trail p))%nat then length (p_trail p)
         else 0%nat) /\
    Forall (fun c => c_radius c = Z.max 1 (p_size p / 2)) trail_circles /\
    c_radius body = p_size p.
Proof.
  unfold Particle_draw. eexists. eexists.
  split; [reflexivity|]. split; [|split; [|reflexivity]].
  - destruct (1 <? length (p_trail p))%nat; [|reflexivity].
    now rewrite length_map, enumerate_length.
  - destruct (1 <? length (p_trail p))%nat; [|constructor].
    apply Forall_forall. intros c Hin.
    apply in_map_iff in Hin. now destruct Hin as ([i pos] & <- & _).
Qed.

Lemma rocket_draw_radii (fw : Firework) :
  f_exploded fw = false ->
  exists (trail_circles : list Circle) (body : Circle),
    Firework_draw fw = trail_circles ++ [body] /\
    length trail_circles
      = (if (1 <? length (f_trail fw))%nat then length (f_trail fw)
         else 0%nat) /\
    Forall (fun c => c_radius c = 2) trail_circles /\
    c_radius body = 3.
Proof.
  intro He. unfold Firework_draw. rewrite He. cbn [negb].
  eexists. eexists.
  split; [reflexivity|]. split; [|split; [|reflexivity]].
  - destruct (1 <? length (f_trail fw))%nat; [|reflexivity].
    now rewrite length_map, enumerate_length.
  - destruct (1 <? length (f_trail fw))%nat; [|constructor].
    apply Forall_forall. intros c Hin.
    apply in_map_iff in Hin. now destruct Hin as ([i pos] & <- & _).
Qed.

(** X7. The radii [draw()] uses on a reachable Firework.  While it
    ascends, it draws one circle of radius 2 per trail point (none for a
    trail of a single point) and then the rocket with radius 3.  Once it
    has exploded, it draws its particles in order; the size of each is
    within [[1, 4]], and a particle is drawn as one circle of radius
    [max(1, size // 2)], which is 1 or 2, per trail point (none for a trail
    of a single point) and then its body with radius [size].  So every
    circle drawn has a radius between 1 and 4. *)
Theorem draw_radius (fw : Firework) :
  reachable fw ->
  Forall (fun p => 1 <= p_size p <= 4) (f_particles fw) /\
  (f_exploded fw = false ->
   exists (trail_circles : list Circle) (body : Circle),
     Firework_draw fw = trail_circles ++ [body] /\
     length trail_circles
       = (if (1 <? length (f_trail fw))%nat then length (f_trail fw)
          else 0%nat) /\
     Forall (fun c => c_radius c = 2) trail_circles /\
     c_radius body = 3) /\
  (f_exploded fw = true ->
   Firework_draw fw = flat_map Particle_draw (f_particles fw) /\
   forall p, In p (f_particles fw) ->
     1 <= Z.max 1 (p_size p / 2) <= 2 /\
     exists (trail_circles : list Circle) (body : Circle),
       Particle_draw p = trail_circles ++ [body] /\
       length trail_circles
         = (if (1 <? length (p_trail p))%nat then length (p_trail p)
            else 0%nat) /\
       Forall (fun c => c_radius c = Z.max 1 (p_size p / 2))
              trail_circles /\
       c_radius body = p_size p) /\
  (forall c, In c (Firework_draw fw) -> 1 <= c_radius c <= 4).
Proof.
  intro Hr. pose proof (reachable_particles_size fw Hr) as Hs.
  split; [exact Hs|]. split; [apply rocket_draw_radii|]. split.
  - intro He. split; [unfold Firework_draw; now rewrite He|].
    intros p Hp. rewrite Forall_forall in Hs. specialize (Hs p Hp).
    split; [|apply Particle_draw_radii].
    assert (p_size p / 2 <= 2)
      by (apply Z.lt_succ_r, Z.div_lt_upper_bound; lia).
    lia.
  - intros c Hin. exact (Firework_draw_radius fw c Hr Hin).
Qed.

(** *** The automatic fireworks, frame after frame *)

(** X9. The counter of the automatic fireworks stays within [[0, 60]]; a
    frame that finds it below 30 never spawns (so at least 31 frames
    separate two automatic fireworks), a frame that finds it at 60 or more
    always spawns (so at most 61 do), and a frame adds at most one
    firework, at the end of the list. *)
Theorem auto_counter_bounded (fws : list Firework) (c : Z) (n : nat) :
  let r := fst (auto_spawn fws c n) in
  (c < 30 -> r = (fws, c + 1)) /\
  (60 <= c -> snd r = 0 /\ length (fst r) = S (length fws)) /\
  (0 <= c <= 60 -> 0 <= snd r <= 60) /\
  (exists new, fst r = fws ++ new /\ (length new <= 1)%nat).
Proof.
  cbv zeta. rewrite auto_spawn_unfold.
  pose proof (randint_range 30 60 n ltac:(lia)) as HT.
  fold (threshold_at n) in HT.
  destruct (Z.ltb_spec (threshold_at n) (c + 1)) as [Hlt | Hge];
    cbn [fst snd].
  - split; [lia|]. split; [|split; [lia|]].
    + intros _. split; [reflexivity|]. rewrite length_app. simpl. lia.
    + eexists. split; [reflexivity | simpl; lia].
  - split; [reflexivity|]. split; [lia|]. split; [lia|].
    exists []. rewrite app_nil_r. split; [reflexivity | simpl; lia].
Qed.

(** *** Events *)

Lemma handle_events_cons (g : Game) (e : Event) (events : list Event)
    (n : nat) :
  handle_events g (e :: events) n
  = handle_events (fst (handle_event g e n)) events
                  (snd (handle_event g e n)).
Proof.
  cbn [handle_events]. unfold bind.
  now destruct (handle_event g e n).
Qed.

(** X11. Handling the events of a frame: [running] becomes false iff it
    was false or a QUIT is among them (and nothing sets it back); each
    MOUSEBUTTONDOWN, before or after a QUIT, appends one ascending
    Firework launched from the bottom of the viewport, in the order of the
    clicks; the other events and the counter are left alone. *)
Theorem handle_events_spec (events : list Event) :
  forall (g : Game) (n : nat),
  let g' := fst (handle_events g events n) in
  running g' = running g && negb (existsb is_QUIT events) /\
  auto_firework g' = auto_firework g /\
  exists new : list Firework,
    fireworks g' = fireworks g ++ new /\
    length new = length (filter is_MOUSEBUTTONDOWN events) /\
    Forall (fun fw => f_exploded fw = false /\ f_y fw = QZ HEIGHT /\
                      f_particles fw = []) new.
Proof.
  induction events as [|e events IH]; intros g n; cbv zeta.
  - simpl. rewrite andb_true_r. repeat split.
    exists []. rewrite app_nil_r. repeat split. constructor.
  - rewrite handle_events_cons.
    destruct (IH (fst (handle_event g e n)) (snd (handle_event g e n)))
      as (Hrun & Hauto & new & Hfw & Hlen & Hnew).
    rewrite Hrun, Hauto, Hfw.
    destruct e as [|x y|].
    + cbn [handle_event ret fst running auto_firework fireworks
           existsb is_QUIT orb negb].
      rewrite andb_false_r. repeat split.
      exists new. repeat split; assumption.
    + rewrite handle_mouse.
      cbn [running auto_firework fireworks existsb is_QUIT orb].
      repeat split.
      eexists (_ :: new). rewrite <- app_assoc.
      split; [reflexivity|]. cbn [filter is_MOUSEBUTTONDOWN length].
      split; [now rewrite Hlen|].
      constructor; [|exact Hnew]. repeat split.
    + cbn [handle_event ret fst existsb is_QUIT orb]. repeat split.
      exists new. repeat split; assumption.
Qed.

Lemma handle_events_running (events : list Event) :
  forall (g : Game) (n : nat),
    running (fst (handle_events g events n))
    = running g && negb (existsb is_QUIT events).
Proof.
  induction events as [|e events IH]; intros g n.
  - simpl. now rewrite andb_true_r.
  - rewrite handle_events_cons, IH.
    destruct e as [|x y|].
    + cbn [handle_event ret fst running existsb is_QUIT orb negb].
      now rewrite andb_false_r.
    + rewrite handle_mouse. reflexivity.
    + reflexivity.
Qed.

Lemma frame_running (g : Game) (events : list Event) (n : nat) :
  running (fst (fst (frame g events n)))
  = running (fst (handle_events g events n)).
Proof.
  unfold frame, bind, ret.
  destruct (handle_events g events n) as [g1 n1].
  destruct (auto_spawn (fireworks g1) (auto_firework g1) n1) as [sp n2].
  destruct (update_and_draw 0 [] (fst sp) n2) as [r n3]. reflexivity.
Qed.

(** X10. A QUIT does not cut the frame short: when the events of a frame
    hold a QUIT, that frame is still run to its end (events, automatic
    firework, clearing, update and drawing of every firework) and is the
    last one, whatever input follows; and a loop entered with [running]
    false runs no frame at all. *)
Theorem quit_ends_loop (g : Game) (events : list Event)
    (rest : list (list Event)) (n : nat) :
  (running g = true -> existsb is_QUIT events = true ->
   main_loop g (events :: rest) n
   = (fst (fst (frame g events n)), [snd (fst (frame g events n))],
      snd (frame g events n))) /\
  (running g = false -> main_loop g (events :: rest) n = (g, [], n)).
Proof.
  split.
  - intros Hrun Hq. cbn [main_loop]. rewrite Hrun. unfold bind at 1.
    pose proof (frame_running g events n) as Hr.
    rewrite handle_events_running, Hq, andb_false_r in Hr.
    destruct (frame g events n) as [[g1 steps] n1]. cbn [fst snd] in *.
    unfold bind, ret.
    destruct rest as [|ev rest]; cbn [main_loop]; [reflexivity|].
    rewrite Hr. reflexivity.
  - intro Hrun. cbn [main_loop]. rewrite Hrun. reflexivity.
Qed.

(** *** What the main loop keeps *)

Lemma Firework_draw_alpha (fw : Firework) (c : Circle) :
  reachable fw -> In c (Firework_draw fw) -> 0 <= alpha_of c <= 255.
Proof.
  intros Hr Hin. unfold Firework_draw in Hin.
  destruct (f_exploded fw); cbn [negb] in Hin.
  - apply in_flat_map in Hin. destruct Hin as (p & Hp & Hin).
    pose proof (reachable_particles_life fw Hr) as Hlife.
    rewrite Forall_forall in Hlife.
    exact (Particle_draw_alpha p c (Hlife p Hp) Hin).
  - apply in_app_or in Hin. destruct Hin as [Hin | [<- | []]].
    + destruct (1 <? length (f_trail fw))%nat; [|contradiction].
      apply in_map_iff in Hin. destruct Hin as ([i pos] & <- & Hin).
      apply enumerate_In in Hin. unfold alpha_of. cbn [c_alpha].
      now apply firework_trail_alpha_range.
    + unfold alpha_of. cbn [c_alpha]. lia.
Qed.

Lemma constructed_live (x ty : Q) (color : Color) (n : nat) :
  live (fst (Firework_init x ty color n)).
Proof. split; [apply reach_init | reflexivity]. Qed.

Lemma handle_events_live (events : list Event) :
  forall (g : Game) (n : nat),
    Forall live (fireworks g) ->
    Forall live (fireworks (fst (handle_events g events n))).
Proof.
  induction events as [|e events IH]; intros g n H; [exact H|].
  rewrite handle_events_cons. apply IH.
  destruct e as [|x y|]; [exact H | | exact H].
  rewrite handle_mouse. cbn [fireworks].
  apply Forall_app. split; [exact H|].
  repeat constructor; apply constructed_live.
Qed.

Lemma auto_spawn_live (fws : list Firework) (c : Z) (n : nat) :
  Forall live fws -> Forall live (fst (fst (auto_spawn fws c n))).
Proof.
  intro H. rewrite auto_spawn_unfold.
  destruct (threshold_at n <? c + 1); cbn [fst]; [|exact H].
  apply Forall_app. split; [exact H|].
  repeat constructor; apply constructed_live.
Qed.

Lemma update_and_draw_live (snapshot : list Firework) (n : nat) :
  Forall live snapshot ->
  let r := fst (update_and_draw 0 [] snapshot n) in
  Forall live (fst r) /\
  forall i fw cs, In (StDraw i fw cs) (snd r) ->
                  reachable fw /\ cs = Firework_draw fw.
Proof.
  intro H. cbv zeta.
  destruct (update_and_draw_spec snapshot 0 [] n) as (upd & HF & Hk & Hs).
  assert (Hupd : Forall reachable upd).
  { clear Hk Hs. induction HF as [|fw fw' l l' [m ->] _ IH];
      [constructor|].
    inversion H as [|? ? [Hr _] Hrest]; subst.
    constructor; [now apply reach_update | now apply IH]. }
  rewrite Forall_forall in Hupd. split.
  - rewrite Hk. cbn [app]. apply Forall_forall. intros fw Hin.
    apply filter_In in Hin. destruct Hin as [Hin Ha].
    split; [now apply Hupd | exact Ha].
  - intros i fw cs Hin. rewrite Hs in Hin.
    apply in_flat_map in Hin. destruct Hin as ([j fw'] & Hc & Hin).
    apply in_combine_r in Hc. cbn [fst snd] in Hin.
    unfold firework_steps in Hin. cbn [In] in Hin.
    destruct Hin as [Hin | [Hin | Hin]]; [discriminate Hin | |].
    + injection Hin as <- <- <-. split; [now apply Hupd | reflexivity].
    + destruct (Firework_is_alive fw'); [contradiction|].
      destruct Hin as [Hin | []]. discriminate Hin.
Qed.

Lemma frame_live (g : Game) (events : list Event) (n : nat) :
  Forall live (fireworks g) ->
  Forall live (fireworks (fst (fst (frame g events n)))) /\
  forall i fw cs, In (StDraw i fw cs) (snd (fst (frame g events n))) ->
                  reachable fw /\ cs = Firework_draw fw.
Proof.
  intro H. unfold frame, bind, ret.
  pose proof (handle_events_live events g n H) as H1.
  destruct (handle_events g events n) as [g1 n1]. cbn [fst] in H1.
  pose proof (auto_spawn_live (fireworks g1) (auto_firework g1) n1 H1)
    as H2.
  destruct (auto_spawn (fireworks g1) (auto_firework g1) n1) as [sp n2].
  cbn [fst] in H2 |- *.
  pose proof (update_and_draw_live (fst sp) n2 H2) as H3. cbv zeta in H3.
  destruct (update_and_draw 0 [] (fst sp) n2) as [r n3].
  cbn [fst snd fireworks] in *. exact H3.
Qed.

Lemma main_loop_cons (g : Game) (events : list Event)
    (inputs : list (list Event)) (n : nat) :
  running g = true ->
  main_loop g (events :: inputs) n
  = (fst (fst (main_loop (fst (fst (frame g events n))) inputs
                         (snd (frame g events n)))),
     snd (fst (frame g events n))
     :: snd (fst (main_loop (fst (fst (frame g events n))) inputs
                            (snd (frame g events n)))),
     snd (main_loop (fst (fst (frame g events n))) inputs
                    (snd (frame g events n)))).
Proof.
  intro Hrun. cbn [main_loop]. rewrite Hrun. unfold bind, ret.
  destruct (frame g events n) as [[g1 steps1] n1]. cbn [fst snd].
  now destruct (main_loop g1 inputs n1) as [[g2 trace] n2].
Qed.

(** X8. The main loop keeps its collection clean: started with live
    fireworks only (reachable states that are alive; none at all at the
    start of [main]), after any number of frames it holds live fireworks
    only, the dead ones having been removed in the frame they died in.
    And every drawing of every frame is the [draw()] of a reachable state,
    so that each circle drawn has an alpha within [[0, 255]] and a radius
    within [[1, 4]]. *)
Theorem main_loop_invariant (inputs : list (list Event)) :
  forall (g : Game) (n : nat),
  Forall live (fireworks g) ->
  let r := fst (main_loop g inputs n) in
  Forall live (fireworks (fst r)) /\
  forall steps i fw cs,
    In steps (snd r) -> In (StDraw i fw cs) steps ->
    reachable fw /\ cs = Firework_draw fw /\
    forall c, In c cs -> 0 <= alpha_of c <= 255 /\ 1 <= c_radius c <= 4.
Proof.
  induction inputs as [|events inputs IH]; intros g n H; cbv zeta.
  - cbn [main_loop ret fst snd]. split; [exact H | contradiction].
  - destruct (running g) eqn:Hrun.
    + rewrite (main_loop_cons g events inputs n Hrun). cbn [fst snd].
      destruct (frame_live g events n H) as [Hl Hd].
      destruct (IH _ (snd (frame g events n)) Hl) as [IHl IHd].
      split; [exact IHl|].
      intros steps i fw cs Hin Hst. cbn [In] in Hin.
      destruct Hin as [<- | Hin].
      * destruct (Hd i fw cs Hst) as [Hr ->].
        split; [exact Hr|]. split; [reflexivity|]. intros c Hc.
        split; [exact (Firework_draw_alpha fw c Hr Hc)
               | exact (Firework_draw_radius fw c Hr Hc)].
      * exact (IHd steps i fw cs Hin Hst).
    + cbn [main_loop]. rewrite Hrun. cbn [ret fst snd].
      split; [exact H | contradiction].
Qed.

(** *** Fading trails *)

Lemma py_int_mono (a b : Q) :
  (0 <= a)%Q -> (a <= b)%Q -> py_int a <= py_int b.
Proof.
  intros Ha Hab. rewrite !py_int_nonneg by lra.
  now apply Qfloor_resp_le.
Qed.

Lemma ratio_mono (i j len : nat) :
  (i <= j)%nat -> (0 <= Qnat i / Qnat len <= Qnat j / Qnat len)%Q.
Proof.
  intro H. pose proof (Qnat_nonneg i) as Hi.
  assert (Hij : (Qnat i <= Qnat j)%Q)
    by (unfold Qnat; rewrite <- Zle_Qle; lia).
  pose proof (Qinv_le_0_compat _ (Qnat_nonneg len)) as Hinv.
  unfold Qdiv. split.
  - now apply Qmult_le_0_compat.
  - now apply Qmult_le_compat_r.
Qed.

Lemma ratio_below_one (i len : nat) :
  (i < len)%nat -> (Qnat i / Qnat len < 1)%Q.
Proof.
  intro H. pose proof (Qnat_nonneg i). pose proof (Qnat_lt i len H).
  apply Qlt_shift_div_r; lra.
Qed.

(** X12. Trails fade towards their tail: along the trail of a particle
    (for a life that is not negative) and along the ascent trail of a
    Firework, the alpha of a point is at most that of every more recent
    point; the oldest point is drawn with alpha 0, and no point of an
    ascent trail reaches alpha 255. *)
Theorem trail_fades :
  (forall (i j len : nat) (life : Z),
     (i <= j)%nat -> 0 <= life ->
     particle_trail_alpha i len life <= particle_trail_alpha j len life) /\
  (forall (len : nat) (life : Z), particle_trail_alpha 0 len life = 0) /\
  (forall i j len : nat,
     (i <= j)%nat ->
     firework_trail_alpha i len <= firework_trail_alpha j len) /\
  (forall len : nat, firework_trail_alpha 0 len = 0) /\
  (forall i len : nat,
     (i < len)%nat -> 0 <= firework_trail_alpha i len < 255).
Proof.
  split; [|split; [|split; [|split]]].
  - intros i j len life Hij Hl. unfold particle_trail_alpha.
    destruct (ratio_mono i j len Hij) as [H0 H1].
    assert (Hf : (0 <= QZ life / 100)%Q).
    { apply Qle_shift_div_l; [lra|]. rewrite Qmult_0_l.
      unfold QZ. change 0%Q with (inject_Z 0). now rewrite <- Zle_Qle. }
    revert H0 H1 Hf.
    generalize (Qnat i / Qnat len)%Q (Qnat j / Qnat len)%Q
               (QZ life / 100)%Q.
    intros a b f H0 H1 Hf. apply py_int_mono; nra.
  - intros len life. reflexivity.
  - intros i j len Hij. unfold firework_trail_alpha.
    destruct (ratio_mono i j len Hij) as [H0 H1].
    apply py_int_mono; lra.
  - intro len. reflexivity.
  - intros i len Hi. unfold firework_trail_alpha.
    destruct (ratio_unit i len Hi) as [H0 _].
    pose proof (ratio_below_one i len Hi) as H1.
    revert H0 H1. generalize (Qnat i / Qnat len)%Q. intros a H0 H1.
    rewrite py_int_nonneg by lra.
    apply Qfloor_bounds;
      [change (QZ 0) with 0%Q | change (QZ 255) with 255%Q]; lra.
Qed.

(** *** Drag and gravity *)

(** X13. Drag and terminal velocity: every particle made by the
    constructor keeps a decay factor within [[0.8, 0.99]] and gravity 0.1
    through its updates; an update shrinks any bound on its horizontal
    speed by the factor 0.99 at least, and a vertical speed within
    [[-10, 10]] stays within [[-10, 10]]. *)
Theorem particle_drag (x y : Q) (color : Color) (speed angle : Q)
    (size : Z) (n k : nat) :
  let p := Particle_updates k
             (fst (Particle_init x y color speed angle size n)) in
  let p' := Particle_update p in
  ((8 # 10) <= p_decay p <= (99 # 100))%Q /\
  p_gravity p = 1 # 10 /\
  (forall b : Q, (- b <= p_vx p <= b)%Q ->
                 (- ((99 # 100) * b) <= p_vx p' <= (99 # 100) * b)%Q) /\
  ((- (10) <= p_vy p <= 10)%Q -> (- (10) <= p_vy p' <= 10)%Q).
Proof.
  intros p p'.
  destruct (Particle_updates_inv k
              (fst (Particle_init x y color speed angle size n)))
    as (Hg & Hd & _ & _).
  fold p in Hg, Hd. cbn [Particle_init uniform random bind ret fst p_gravity
    p_decay] in Hg, Hd.
  pose proof (uniform_range (8 # 10) (99 # 100) n ltac:(lra)) as Hu.
  cbn [uniform random bind ret fst] in Hu. rewrite <- Hd in Hu.
  split; [exact Hu|]. split; [exact Hg|].
  unfold p'. cbn [Particle_update p_vx p_vy]. rewrite Hg.
  revert Hu. generalize (p_decay p) (p_vx p) (p_vy p). intros d vx vy Hu.
  split.
  - intros b Hb. split; nra.
  - intros Hv. split; nra.
Qed.

(** *** The counter across frames *)

Lemma handle_events_auto (events : list Event) :
  forall (g : Game) (n : nat),
    auto_firework (fst (handle_events g events n)) = auto_firework g.
Proof.
  induction events as [|e events IH]; intros g n; [reflexivity|].
  rewrite handle_events_cons, IH.
  destruct e as [|x y|]; [reflexivity | | reflexivity].
  rewrite handle_mouse. reflexivity.
Qed.

Lemma auto_spawn_counter (fws : list Firework) (c : Z) (n : nat) :
  0 <= c <= 60 -> 0 <= snd (fst (auto_spawn fws c n)) <= 60.
Proof.
  intro Hc. rewrite auto_spawn_unfold.
  pose proof (randint_range 30 60 n ltac:(lia)) as HT.
  fold (threshold_at n) in HT.
  destruct (Z.ltb_spec (threshold_at n) (c + 1)); cbn [fst snd]; lia.
Qed.

Lemma frame_auto (g : Game) (events : list Event) (n : nat) :
  auto_firework (fst (fst (frame g events n)))
  = snd (fst (auto_spawn (fireworks (fst (handle_events g events n)))
                         (auto_firework g)
                         (snd (handle_events g events n)))).
Proof.
  rewrite <- (handle_events_auto events g n).
  unfold frame, bind, ret.
  destruct (handle_events g events n) as [g1 n1]. cbn [fst snd].
  destruct (auto_spawn (fireworks g1) (auto_firework g1) n1) as [sp n2].
  destruct (update_and_draw 0 [] (fst sp) n2) as [r n3]. reflexivity.
Qed.

(** X14. Through any run of the main loop the counter of the automatic
    fireworks stays within [[0, 60]] (it starts at 0), whatever the events
    received. *)
Theorem main_loop_counter (inputs : list (list Event)) :
  forall (g : Game) (n : nat),
    0 <= auto_firework g <= 60 ->
    0 <= auto_firework (fst (fst (main_loop g inputs n))) <= 60.
Proof.
  induction inputs as [|events inputs IH]; intros g n H; [exact H|].
  destruct (running g) eqn:Hrun.
  - rewrite (main_loop_cons g events inputs n Hrun). cbn [fst].
    apply IH. rewrite frame_auto. now apply auto_spawn_counter.
  - cbn [main_loop]. rewrite Hrun. exact H.
Qed.

(** *** Colours *)

Lemma explode_loop_color (fw : Firework) (N : Z) (range : list nat) :
  forall (ps : list Particle) (n : nat),
    Forall (fun p => p_color p = f_color fw) ps ->
    Forall (fun p => p_color p = f_color fw)
           (fst (explode_loop fw N range ps n)).
Proof.
  induction range as [|i range IH]; intros ps n Hps; [exact Hps|].
  rewrite explode_loop_step.
  destruct (Qlt_bool (tape (3 + n)%nat) (3 # 10)); apply IH.
  - repeat (apply Forall_app; split; [|repeat constructor]). exact Hps.
  - apply Forall_app; split; [exact Hps | repeat constructor].
Qed.

Lemma reachable_colors (fw : Firework) :
  reachable fw ->
  f_vx fw = 0%Q /\ Forall (fun p => p_color p = f_color fw) (f_particles fw).
Proof.
  induction 1 as [x ty c n | fw n Hr (Hvx & Hc)].
  - split; [reflexivity | constructor].
  - destruct (f_exploded fw) eqn:E.
    + rewrite (Firework_update_exploded fw n E).
      cbn [fst f_vx f_particles f_color]. split; [exact Hvx|].
      rewrite update_particles_filter. cbn [app].
      apply Forall_forall. intros p' Hin.
      apply filter_In in Hin. destruct Hin as [Hin _].
      apply in_map_iff in Hin. destruct Hin as (p & <- & Hin).
      rewrite Forall_forall in Hc. exact (Hc p Hin).
    + rewrite (Firework_update_ascending fw n E).
      destruct (trigger (ascend fw)); [|split; [exact Hvx | exact Hc]].
      destruct (explode_fields (ascend fw) n)
        as (_ & _ & _ & Ec & Evx & _ & _ & _).
      rewrite Ec, Evx. split; [exact Hvx|].
      rewrite explode_particles. apply explode_loop_color. exact Hc.
Qed.

(** X15. A Firework keeps one colour and no horizontal speed: in every
    reachable state [vx] is 0, every particle of the burst has the colour
    of its Firework, and every circle [draw()] draws, rocket, trail or
    particle, is of that colour. *)
Theorem one_colour (fw : Firework) :
  reachable fw ->
  f_vx fw = 0%Q /\
  Forall (fun p => p_color p = f_color fw) (f_particles fw) /\
  forall c, In c (Firework_draw fw) -> c_color c = f_color fw.
Proof.
  intro Hr. destruct (reachable_colors fw Hr) as [Hvx Hc].
  split; [exact Hvx|]. split; [exact Hc|].
  intros c Hin. unfold Firework_draw in Hin.
  destruct (f_exploded fw); cbn [negb] in Hin.
  - apply in_flat_map in Hin. destruct Hin as (p & Hp & Hin).
    rewrite Forall_forall in Hc. rewrite <- (Hc p Hp).
    unfold Particle_draw in Hin.
    apply in_app_or in Hin. destruct Hin as [Hin | [<- | []]];
      [|reflexivity].
    destruct (1 <? length (p_trail p))%nat; [|contradiction].
    apply in_map_iff in Hin. now destruct Hin as ([i pos] & <- & _).
  - apply in_app_or in Hin. destruct Hin as [Hin | [<- | []]];
      [|reflexivity].
    destruct (1 <? length (f_trail fw))%nat; [|contradiction].
    apply in_map_iff in Hin. now destruct Hin as ([i pos] & <- & _).
Qed.

End Simulation.

(** ** The program run on sample oracles *)

Lemma tape_half_unit : forall n, (0 <= tape_half n < 1)%Q.
Proof. intro n. unfold tape_half. lra. Qed.

Lemma tape_cycle_unit : forall n, (0 <= tape_cycle n < 1)%Q.
Proof.
  intro n. unfold tape_cycle, Qle, Qlt. cbn [Qnum Qden].
  pose proof (Nat.mod_upper_bound n 10 ltac:(lia)). lia.
Qed.

Lemma Particle_update_spec_witness :
  let p0 := fst (Particle_init tape_half cos_approx sin_approx
                   400 300 (255, 0, 0) 5 0 3 0%nat) in
  let p12 := Particle_updates 12 p0 in
  let p99 := Particle_updates 99 p0 in
  length (p_trail p12) = 10%nat /\
  p_trail (Particle_update p12) = tl (p_trail p12) ++ [(p_x p12, p_y p12)] /\
  p_life (Particle_update p99) <= 0 /\
  Particle_is_alive (Particle_update p99) = false.
Proof.
  intros p0 p12 p99.
  assert (H10 : length (p_trail p12) = 10%nat) by (vm_compute; reflexivity).
  pose proof (Particle_update_spec tape_half cos_approx sin_approx
                400 300 (255, 0, 0) 5 0 3 0%nat 12%nat) as H12.
  pose proof (Particle_update_spec tape_half cos_approx sin_approx
                400 300 (255, 0, 0) 5 0 3 0%nat 99%nat) as H99.
  cbv zeta in H12, H99. fold p0 in H12, H99. fold p12 in H12.
  fold p99 in H99.
  destruct H12 as (_ & Hfull & _).
  destruct H99 as (_ & _ & _ & _ & _ & _ & _ & Hl & Hl' & _ & _ & _ & Hdead).
  assert (Hle : p_life (Particle_update p99) <= 0).
  { rewrite Hl', Hl. simpl. lia. }
  split; [exact H10|]. split; [exact (Hfull H10)|].
  split; [exact Hle | exact (Hdead Hle)].
Defined.

Lemma ascending_update_spec_witness :
  let fw := fst (Firework_init tape_half 400 300 (255, 0, 0) 0%nat) in
  f_exploded fw = false /\
  f_vy (fst (Firework_update tape_half cos_approx sin_approx fw 1%nat))
    = (f_vy fw + (3 # 10))%Q /\
  exists k : nat,
    forall j, f_exploded
                (fst (updates tape_half cos_approx sin_approx j fw 1%nat)) = true
              <-> (k < j)%nat.
Proof.
  intro fw.
  destruct (ascending_update_spec tape_half cos_approx sin_approx fw 1%nat
              eq_refl) as [Hstep (k & Hk & _)].
  split; [reflexivity|]. split; [apply Hstep|].
  exists k. exact Hk.
Defined.

Lemma firework_phase_invariant_witness :
  let fw0 := fst (Firework_init tape_half 400 590 (255, 0, 0) 0%nat) in
  let fw := fst (Firework_update tape_half cos_approx sin_approx fw0 1%nat) in
  reachable tape_half cos_approx sin_approx fw /\
  f_exploded fw = true /\
  (f_exploded fw0 = false -> f_particles fw0 = []) /\
  forall k n : nat,
    f_y (fst (updates tape_half cos_approx sin_approx k fw n)) = f_y fw /\
    f_trail (fst (updates tape_half cos_approx sin_approx k fw n))
      = f_trail fw.
Proof.
  intros fw0 fw.
  assert (Hr0 : reachable tape_half cos_approx sin_approx fw0)
    by apply reach_init.
  assert (Hr : reachable tape_half cos_approx sin_approx fw)
    by (apply reach_update; exact Hr0).
  assert (He : f_exploded fw = true) by (vm_compute; reflexivity).
  split; [exact Hr|]. split; [exact He|]. split.
  - apply (firework_phase_invariant tape_half cos_approx sin_approx fw0 Hr0).
  - intros k n.
    destruct (firework_phase_invariant tape_half cos_approx sin_approx fw Hr)
      as [_ H].
    destruct (H He k n) as (_ & Hy & _ & Htr & _).
    split; [exact Hy | exact Htr].
Defined.

Lemma spawn_near_bottom_explodes_at_once_witness :
  (forall n, (0 <= tape_half n < 1)%Q) /\
  (QZ HEIGHT - (147 # 10) <= QZ 590)%Q /\
  f_exploded
    (fst (Firework_update tape_half cos_approx sin_approx
            (fst (Firework_init tape_half (QZ 400) (QZ 590) (255, 0, 0) 0%nat))
            1%nat)) = true.
Proof.
  assert (Hty : (QZ HEIGHT - (147 # 10) <= QZ 590)%Q)
    by (vm_compute; discriminate).
  split; [exact tape_half_unit|]. split; [exact Hty|].
  destruct (spawn_near_bottom_explodes_at_once tape_half cos_approx
              sin_approx tape_half_unit) as [Hinit _].
  destruct (Hinit (QZ 400) (QZ 590) (255, 0, 0) 0%nat)
    as (_&_&_&_&_&_&_&_&_&_&Hexp).
  exact (Hexp Hty 1%nat).
Defined.

Lemma explode_spec_witness :
  let fw := fst (Firework_init tape_cycle 400 300 (255, 0, 0) 0%nat) in
  let fw' := fst (explode tape_cycle cos_approx sin_approx fw 1%nat) in
  (forall n, (0 <= tape_cycle n < 1)%Q) /\
  30 <= fst (randint tape_cycle 30 60 1%nat) <= 60 /\
  f_exploded fw' = true /\
  exists bursts : list (nat * (Particle * option Particle)),
    f_particles fw' = flat_map (fun b => burst_particles (snd b)) bursts /\
    Z.of_nat (length bursts) = fst (randint tape_cycle 30 60 1%nat).
Proof.
  intros fw fw'.
  destruct (explode_spec tape_cycle cos_approx sin_approx tape_cycle_unit
              fw 1%nat) as (HN & He & _ & _ & _ & bs & Hps & Hlen & _).
  split; [exact tape_cycle_unit|]. split; [exact HN|]. split; [exact He|].
  exists bs. split; [exact Hps | exact Hlen].
Defined.

Lemma alpha_in_range_witness :
  let p := mkParticle 410 320 (255, 0, 0) 3 1 1 (1 # 10) 50 (9 # 10)
                      [(400, 300); (405, 310); (408, 315)]%Q in
  let fw := fst (Firework_init tape_half 400 300 (255, 0, 0) 0%nat) in
  let body := mkCircle (255, 0, 0) None (400, 600) 3 in
  (0 < p_life p <= 100 /\ (length (p_trail p) <= 10)%nat /\
   (2 < length (p_trail p))%nat) /\
  0 <= particle_trail_alpha 2 (length (p_trail p)) (p_life p) <= 255 /\
  (reachable tape_half cos_approx sin_approx fw /\
   In body (Firework_draw fw)) /\
  0 <= alpha_of body <= 255.
Proof.
  intros p fw body.
  assert (Hp : 0 < p_life p <= 100 /\ (length (p_trail p) <= 10)%nat /\
               (2 < length (p_trail p))%nat) by (simpl; lia).
  assert (Hfw : reachable tape_half cos_approx sin_approx fw /\
                In body (Firework_draw fw)).
  { split; [apply reach_init | left; reflexivity]. }
  destruct (alpha_in_range tape_half cos_approx sin_approx)
    as (Hpart & _ & Hdraw).
  destruct Hp as (Hl & Hlen & Hi). destruct Hfw as (Hr & Hin).
  split; [repeat split; solve [apply Hl | exact Hlen | exact Hi]|].
  split; [apply (Hpart p 2%nat Hl Hlen Hi)|].
  split; [split; [exact Hr | exact Hin]|].
  exact (Hdraw fw body Hr Hin).
Defined.

Lemma auto_spawn_spec_witness :
  (forall n, (0 <= tape_half n < 1)%Q) /\
  (threshold_at tape_half 7%nat < 45 + 1 /\
   exists (fw : Firework) (x target_y : Z),
     auto_spawn tape_half [] 45 7%nat = ([fw], 0, 12%nat) /\
     f_x fw = QZ x /\ 50 <= x <= WIDTH - 50) /\
  (3 + 1 <= threshold_at tape_half 7%nat /\
   auto_spawn tape_half [] 3 7%nat = ([], 3 + 1, 8%nat)).
Proof.
  assert (Hlt : threshold_at tape_half 7%nat < 45 + 1)
    by (vm_compute; reflexivity).
  assert (Hle : 3 + 1 <= threshold_at tape_half 7%nat)
    by (vm_compute; discriminate).
  split; [exact tape_half_unit|]. split.
  - split; [exact Hlt|].
    destruct (auto_spawn_spec tape_half tape_half_unit [] 45 7%nat)
      as (_ & _ & Hspawn).
    destruct (Hspawn Hlt) as (fw & x & ty & Hr & Hx & Hxr & _).
    exists fw, x, ty. split; [exact Hr | split; [exact Hx | exact Hxr]].
  - split; [exact Hle|].
    destruct (auto_spawn_spec tape_half tape_half_unit [] 3 7%nat)
      as (_ & Hkeep & _).
    exact (Hkeep Hle).
Defined.

(** ** Where the specification and the code part *)

(** C2. Two clicks in the first frame: the first firework is drawn before
    the second is updated.  A firework clicked at (400, 590) a hundred
    frames ago, followed by a fresh one: the first is removed before the
    second is drawn. *)
Lemma pass_order_counterexample :
  ~ updates_before_draws
      (snd (fst (frame tape_half cos_approx sin_approx
                   (initial_game (plain_surface BLACK))
                   [MOUSEBUTTONDOWN 100 300; MOUSEBUTTONDOWN 200 300]
                   0%nat))) /\
  ~ draws_before_removals
      (snd (fst (update_and_draw tape_half cos_approx sin_approx 0 []
                   [ fst (updates tape_half cos_approx sin_approx 100
                            (fst (Firework_init tape_half 400 590
                                    (255, 0, 0) 0%nat)) 1%nat);
                     fst (Firework_init tape_half 100 300
                            (0, 255, 0) 500%nat) ]
                   600%nat))).
Proof.
  split.
  - intro H. vm_compute in H.
    specialize (H 1%nat 2%nat _ _ _ _ eq_refl eq_refl). lia.
  - assert (Hty : (QZ HEIGHT - (147 # 10) <= 590)%Q)
      by (vm_compute; discriminate).
    destruct (low_firework_dies tape_half cos_approx sin_approx
                tape_half_unit 400 590 (255, 0, 0) 0%nat 1%nat Hty)
      as [_ Hdead].
    cbv zeta in Hdead.
    set (old := fst (updates tape_half cos_approx sin_approx 100 _ _)) in *.
    set (new := fst (Firework_init tape_half 100 300 (0, 255, 0) 500%nat)).
    intro H.
    rewrite update_and_draw_cons in H. cbv zeta in H. cbn [fst snd] in H.
    rewrite (Hdead 600%nat) in H.
    rewrite update_and_draw_cons in H. cbv zeta in H. cbn [fst snd] in H.
    unfold firework_steps in H. rewrite (Hdead 600%nat) in H.
    cbn [app] in H.
    specialize (H 2%nat 4%nat _ _ _ _ eq_refl eq_refl). lia.
Qed.

(** C8. A click at (900, 700), outside the 800 x 600 viewport: the
    Firework spawned has [x = 900] and [target_y = 700]. *)
Lemma spawn_out_of_bounds_unclamped :
  ~ (forall fw : Firework,
       In fw (fireworks
                (fst (handle_event tape_half
                        (initial_game (plain_surface BLACK))
                        (MOUSEBUTTONDOWN 900 700) 0%nat))) ->
       (0 <= f_x fw <= QZ WIDTH)%Q /\ (0 <= f_target_y fw <= QZ HEIGHT)%Q).
Proof.
  intro H. specialize (H _ (or_introl eq_refl)).
  destruct H as [[_ H] _]. vm_compute in H. apply H. reflexivity.
Qed.

(** C9. The threshold compared at the first frame of a cycle is 45, no
    firework is spawned, and the next frame compares against 30: the
    threshold is not held.  And on a tape whose first threshold is 60 and
    the others 30, the code spawns at frame 31, which a threshold of 60
    held from the first frame would not allow before frame 61. *)
Lemma auto_spawn_threshold_redrawn :
  (threshold_at tape_first_half 0%nat = 45 /\
   auto_spawn tape_first_half [] 0 0%nat = ([], 1, 1%nat) /\
   threshold_at tape_first_half 1%nat = 30) /\
  (threshold_at tape_first_high 0%nat = 60 /\
   length (fst (fst (auto_ticks tape_first_high 31 [] 0 0%nat))) = 1%nat /\
   length (fst (fst (fst (auto_ticks_held tape_first_high 31 [] 0 60
                            1%nat)))) = 0%nat) /\
  ~ (forall k : nat,
       length (fst (fst (auto_ticks tape_first_high k [] 0 0%nat)))
       = length (fst (fst (fst (auto_ticks_held tape_first_high k [] 0
                                  (threshold_at tape_first_high 0%nat)
                                  1%nat))))).
Proof.
  split; [repeat split|]. split; [repeat split; vm_compute; reflexivity|].
  intro H. specialize (H 31%nat). vm_compute in H. discriminate.
Qed.

(** ** The further properties on sample runs *)

Lemma reachable_trails_capped_witness :
  let fw := fst (updates tape_half cos_approx sin_approx 30
                   (fst (Firework_init tape_half 400 300 (255, 0, 0) 0%nat))
                   1%nat) in
  reachable tape_half cos_approx sin_approx fw /\
  (length (f_trail fw) <= 20)%nat.
Proof.
  intro fw.
  assert (Hr : reachable tape_half cos_approx sin_approx fw)
    by apply reachable_updates, reach_init.
  split; [exact Hr|].
  apply (reachable_trails_capped tape_half cos_approx sin_approx fw Hr).
Defined.

Lemma exploded_update_particles_witness :
  let fw := fst (Firework_update tape_half cos_approx sin_approx
                   (fst (Firework_init tape_half 400 590 (255, 0, 0) 0%nat))
                   1%nat) in
  f_exploded fw = true /\
  (length (f_particles
             (fst (Firework_update tape_half cos_approx sin_approx fw
                     7%nat)))
   <= length (f_particles fw))%nat.
Proof.
  intro fw.
  assert (He : f_exploded fw = true) by (vm_compute; reflexivity).
  split; [exact He|].
  apply (exploded_update_particles tape_half cos_approx sin_approx fw 7%nat
           He).
Defined.

Lemma firework_lifetime_witness :
  (forall n, (0 <= tape_cycle n < 1)%Q) /\
  (167 <= 200)%nat /\
  Firework_is_alive
    (fst (updates tape_cycle cos_approx sin_approx 200
            (fst (Firework_init tape_cycle 400 300 (255, 0, 0) 0%nat))
            1%nat)) = false.
Proof.
  assert (Hj : (167 <= 200)%nat) by lia.
  split; [exact tape_cycle_unit|]. split; [exact Hj|].
  apply (firework_lifetime tape_cycle cos_approx sin_approx tape_cycle_unit
           400 300 (255, 0, 0) 0%nat 1%nat 200%nat), Hj.
Defined.

Lemma ascending_state_bounds_witness :
  let fw := fst (updates tape_half cos_approx sin_approx 5
                   (fst (Firework_init tape_half 400 300 (255, 0, 0) 0%nat))
                   1%nat) in
  (forall n, (0 <= tape_half n < 1)%Q) /\
  f_exploded fw = false /\
  (- (20) <= f_vy fw < 0)%Q /\ (300 < f_y fw)%Q.
Proof.
  intro fw.
  assert (He : f_exploded fw = false) by (vm_compute; reflexivity).
  destruct (ascending_state_bounds tape_half cos_approx sin_approx
              tape_half_unit 400 300 (255, 0, 0) 0%nat 1%nat 5%nat He)
    as (Hvy & _ & _ & Hy).
  split; [exact tape_half_unit|]. split; [exact He|].
  split; [exact Hvy | apply Hy; lia].
Defined.

Lemma explosion_altitude_witness :
  (forall n, (0 <= tape_half n < 1)%Q) /\
  (300 <= QZ HEIGHT)%Q /\
  (300 - (197 # 10)
   <= f_y (fst (updates tape_half cos_approx sin_approx 40%nat
                  (fst (Firework_init tape_half 400 300 (255, 0, 0)%Z
                          0%nat))
                  1%nat)))%Q.
Proof.
  assert (Hty : (300 <= QZ HEIGHT)%Q) by (vm_compute; discriminate).
  split; [exact tape_half_unit|]. split; [exact Hty|].
  apply (explosion_altitude tape_half cos_approx sin_approx tape_half_unit
           400 300 (255, 0, 0) 0%nat 1%nat 40%nat Hty).
Defined.

Lemma burst_size_witness :
  let fw0 := fst (Firework_init tape_cycle 400 590 (255, 0, 0) 0%nat) in
  (forall n, (0 <= tape_cycle n < 1)%Q) /\
  reachable tape_cycle cos_approx sin_approx fw0 /\
  f_exploded fw0 = false /\
  f_exploded (fst (Firework_update tape_cycle cos_approx sin_approx fw0
                     1%nat)) = true /\
  (30 <= length (f_particles
                   (fst (Firework_update tape_cycle cos_approx sin_approx
                           fw0 1%nat)))
      <= 120)%nat.
Proof.
  intro fw0.
  assert (Hr : reachable tape_cycle cos_approx sin_approx fw0)
    by apply reach_init.
  assert (He : f_exploded
                 (fst (Firework_update tape_cycle cos_approx sin_approx fw0
                         1%nat)) = true) by (vm_compute; reflexivity).
  destruct (burst_size tape_cycle cos_approx sin_approx tape_cycle_unit
              fw0 Hr) as [_ H].
  split; [exact tape_cycle_unit|]. split; [exact Hr|].
  split; [reflexivity|]. split; [exact He|].
  exact (H 1%nat eq_refl He).
Defined.

Lemma draw_radius_witness :
  let fw0 := fst (Firework_init tape_half 400 590 (255, 0, 0) 0%nat) in
  let fw := fst (Firework_update tape_half cos_approx sin_approx fw0
                   1%nat) in
  (forall n, (0 <= tape_half n < 1)%Q) /\
  (reachable tape_half cos_approx sin_approx fw0 /\
   f_exploded fw0 = false) /\
  (reachable tape_half cos_approx sin_approx fw /\
   f_exploded fw = true) /\
  (exists (trail_circles : list Circle) (body : Circle),
     Firework_draw fw0 = trail_circles ++ [body] /\ c_radius body = 3) /\
  Forall (fun p => 1 <= p_size p <= 4) (f_particles fw) /\
  Firework_draw fw = flat_map Particle_draw (f_particles fw).
Proof.
  intros fw0 fw.
  assert (Hr0 : reachable tape_half cos_approx sin_approx fw0)
    by apply reach_init.
  assert (Hr : reachable tape_half cos_approx sin_approx fw)
    by (apply reach_update; exact Hr0).
  assert (He0 : f_exploded fw0 = false) by reflexivity.
  assert (He : f_exploded fw = true) by (vm_compute; reflexivity).
  destruct (draw_radius tape_half cos_approx sin_approx tape_half_unit
              fw0 Hr0) as (_ & Hasc & _).
  destruct (Hasc He0) as (tc & body & Hd & _ & _ & Hb).
  destruct (draw_radius tape_half cos_approx sin_approx tape_half_unit
              fw Hr) as (Hsz & _ & Hexp & _).
  destruct (Hexp He) as (Hdraw & _).
  split; [exact tape_half_unit|].
  split; [split; [exact Hr0 | exact He0]|].
  split; [split; [exact Hr | exact He]|].
  split; [exists tc, body; split; [exact Hd | exact Hb]|].
  split; [exact Hsz | exact Hdraw].
Defined.

Lemma main_loop_invariant_witness :
  let g := initial_game (plain_surface BLACK) in
  let inputs := [[MOUSEBUTTONDOWN 400 590]; []; [MOUSEBUTTONDOWN 100 300]] in
  (forall n, (0 <= tape_half n < 1)%Q) /\
  Forall (live tape_half cos_approx sin_approx) (fireworks g) /\
  Forall (live tape_half cos_approx sin_approx)
         (fireworks (fst (fst (main_loop tape_half cos_approx sin_approx g
                                 inputs 0%nat)))).
Proof.
  intros g inputs.
  assert (H0 : Forall (live tape_half cos_approx sin_approx) (fireworks g))
    by constructor.
  split; [exact tape_half_unit|]. split; [exact H0|].
  apply (main_loop_invariant tape_half cos_approx sin_approx tape_half_unit
           inputs g 0%nat H0).
Defined.

Lemma auto_counter_bounded_witness :
  (forall n, (0 <= tape_half n < 1)%Q) /\
  (12 < 30 /\ fst (auto_spawn tape_half [] 12 0%nat) = ([], 12 + 1)) /\
  (60 <= 60 /\ snd (fst (auto_spawn tape_half [] 60 0%nat)) = 0).
Proof.
  destruct (auto_counter_bounded tape_half tape_half_unit [] 12 0%nat)
    as (Hlow & _).
  destruct (auto_counter_bounded tape_half tape_half_unit [] 60 0%nat)
    as (_ & Hhigh & _).
  split; [exact tape_half_unit|]. split.
  - split; [lia | apply Hlow; lia].
  - split; [lia | apply Hhigh; lia].
Defined.

Lemma quit_ends_loop_witness :
  let g := initial_game (plain_surface BLACK) in
  let events := [QUIT; MOUSEBUTTONDOWN 400 300] in
  (running g = true /\ existsb is_QUIT events = true) /\
  snd (fst (main_loop tape_half cos_approx sin_approx g
              [events; [MOUSEBUTTONDOWN 100 300]; []] 0%nat))
  = [snd (fst (frame tape_half cos_approx sin_approx g events 0%nat))].
Proof.
  intros g events.
  destruct (quit_ends_loop tape_half cos_approx sin_approx g events
              [[MOUSEBUTTONDOWN 100 300]; []] 0%nat) as [H _].
  split; [split; reflexivity|].
  rewrite (H eq_refl eq_refl). reflexivity.
Defined.

Lemma trail_fades_witness :
  ((2 <= 7)%nat /\ 0 <= 40) /\
  particle_trail_alpha 2 10 40 <= particle_trail_alpha 7 10 40 /\
  ((9 < 10)%nat /\ 0 <= firework_trail_alpha 9 10 < 255).
Proof.
  destruct trail_fades as (Hp & _ & _ & _ & Hf).
  assert (H1 : (2 <= 7)%nat /\ 0 <= 40) by lia.
  assert (H2 : (9 < 10)%nat) by lia.
  split; [exact H1|]. split; [apply Hp; apply H1|].
  split; [exact H2 | apply Hf, H2].
Defined.

Lemma particle_drag_witness :
  let p := Particle_updates 3
             (fst (Particle_init tape_half cos_approx sin_approx 400 300
                     (255, 0, 0) 5 1 3 0%nat)) in
  (forall n, (0 <= tape_half n < 1)%Q) /\
  (- (10) <= p_vy p <= 10)%Q /\
  (- (10) <= p_vy (Particle_update p) <= 10)%Q.
Proof.
  intro p.
  assert (Hv : (- (10) <= p_vy p <= 10)%Q)
    by (vm_compute; split; discriminate).
  destruct (particle_drag tape_half cos_approx sin_approx tape_half_unit
              400 300 (255, 0, 0) 5 1 3 0%nat 3%nat) as (_ & _ & _ & H).
  split; [exact tape_half_unit|]. split; [exact Hv | exact (H Hv)].
Defined.

Lemma main_loop_counter_witness :
  let g := initial_game (plain_surface BLACK) in
  (forall n, (0 <= tape_half n < 1)%Q) /\
  0 <= auto_firework g <= 60 /\
  0 <= auto_firework
         (fst (fst (main_loop tape_half cos_approx sin_approx g
                      [[]; [MOUSEBUTTONDOWN 400 300]; []] 0%nat))) <= 60.
Proof.
  intro g.
  assert (H0 : 0 <= auto_firework g <= 60) by (simpl; lia).
  split; [exact tape_half_unit|]. split; [exact H0|].
  apply (main_loop_counter tape_half cos_approx sin_approx tape_half_unit
           [[]; [MOUSEBUTTONDOWN 400 300]; []] g 0%nat H0).
Defined.

Lemma one_colour_witness :
  let fw := fst (Firework_update tape_half cos_approx sin_approx
                   (fst (Firework_init tape_half 400 590 (0, 255, 0) 0%nat))
                   1%nat) in
  reachable tape_half cos_approx sin_approx fw /\
  Forall (fun p => p_color p = (0, 255, 0)) (f_particles fw).
Proof.
  intro fw.
  assert (Hr : reachable tape_half cos_approx sin_approx fw)
    by apply reach_update, reach_init.
  destruct (one_colour tape_half cos_approx sin_approx fw Hr)
    as (_ & Hc & _).
  split; [exact Hr|].
  assert (Hcol : f_color fw = (0, 255, 0)) by (vm_compute; reflexivity).
  rewrite <- Hcol. exact Hc.
Defined.
